(** * k8s-policy: the pod handlers of [handlers/pod.py]

    A shallow embedding of the three pod callbacks ([add_pod], [update_pod],
    [delete_pod]), of the pod parser, of the cache reloader and of the
    [KDEndpoint] adapter, followed by the properties that the specification
    states about them.

    Conventions of the embedding.

    - A Python [dict] with string keys is a [gmap string _]; the comparison
      [old_labels == labels] is equality of maps, and [label_cache.get(k)] is
      the lookup [label_cache !! k] ([None] standing for Python's [None]).
    - Module level state ([label_cache], [endpoint_cache] and the store behind
      [client]) is one record, [globals], that every handler threads; the
      record carries in addition the list of calls made on [client], so that
      "how many reads, how many writes" can be stated.
    - Exceptions are values: a computation yields [Return v] or [Raise e], and
      the globals it leaves behind in both cases.
    - Objects that the code mutates in place are made explicit.  [parse_pod]
      writes into the label mapping held by the event, so it returns the event
      as it is afterwards.  [update_pod] mutates the endpoint object that sits
      in [endpoint_cache] before it calls the client, so the cache entry
      changes at that point and not at the final assignment.
    - After a handler has run, the caches may hold the very mapping that the
      event holds ([label_cache[workload_id] = labels]).  The embedding keeps
      a copy instead: the only statement that writes into a mapping is the
      one of [parse_pod], on the event at hand, and on an event that was
      parsed before it writes the value that is already there; so the copy
      and the shared mapping cannot be told apart as long as the caller does
      not edit an event between two deliveries of it.
    - What the file imports from elsewhere is a parameter:
      [K8S_NAMESPACE_LABEL] (from [constants]), the address check of
      [netaddr.IPAddress], the client of [pycalico.datastore] and the
      [to_json] of the base class [Endpoint]. *)

From Stdlib Require Import Ascii String.
From stdpp Require Import base option list strings gmap fin_maps.

Local Open Scope string_scope.
Local Open Scope list_scope.

(** ** Results and exceptions *)

Inductive exn :=
  | KeyError (key : string)
  | ClientError (what : string).

Inductive result (A : Type) :=
  | Return (a : A)
  | Raise (e : exn).
Arguments Return {A} a.
Arguments Raise {A} e.

(** ** Pod events

    [pod["metadata"]] is a mapping in which ["namespace"], ["name"] and
    ["labels"] may each be present or not.  Label keys and values are strings
    (the Kubernetes API fixes that shape). *)

Record metadata := Metadata {
  md_namespace : option string;
  md_name : option string;
  md_labels : option (gmap string string)
}.

Record pod := Pod {
  pod_metadata : option metadata
}.

(** ** Endpoints

    [IPNetwork] keeps what the handlers read of a [netaddr.IPNetwork]: the
    text of its address, [str(ip_net.ip)], and the prefix length. *)

Record IPNetwork := Net {
  ip : string;
  prefixlen : nat
}.

(** The attributes of [pycalico.datastore_datatypes.Endpoint] that
    [from_endpoint] reads. *)
Record Endpoint := MkEndpoint {
  hostname : string;
  orchestrator_id : string;
  workload_id : string;
  endpoint_id : string;
  state : string;
  mac : string;
  name : string;
  ipv4_nets : list IPNetwork;
  ipv6_nets : list IPNetwork;
  profile_ids : list string;
  _original_json : option string;
  labels : gmap string string
}.

(** One element of [ipv4_nat]: the dict [{"int_ip": .., "ext_ip": ..}]. *)
Record nat_entry := NatEntry {
  int_ip : string;
  ext_ip : string
}.

(** [KDEndpoint(Endpoint)]: the inherited attributes and [ipv4_nat], which is
    [None] or a list. *)
Record KDEndpoint := MkKDEndpoint {
  kd_endpoint : Endpoint;
  ipv4_nat : option (list nat_entry)
}.

Definition set_labels (l : gmap string string) (ep : Endpoint) : Endpoint :=
  {| hostname := hostname ep; orchestrator_id := orchestrator_id ep;
     workload_id := workload_id ep; endpoint_id := endpoint_id ep;
     state := state ep; mac := mac ep; name := name ep;
     ipv4_nets := ipv4_nets ep; ipv6_nets := ipv6_nets ep;
     profile_ids := profile_ids ep; _original_json := _original_json ep;
     labels := l |}.

(** JSON documents, as [json.loads] returns them. *)
#[local] Set Warnings "-register-all".
Inductive json :=
  | JNull
  | JString (s : string)
  | JArray (l : list json)
  | JObject (fields : list (string * json)).
#[local] Set Warnings "register-all".

(** ** What the file imports *)

(** [from constants import *]: the reserved namespace key. *)
Class Constants := {
  K8S_NAMESPACE_LABEL : string
}.

(** [netaddr.IPAddress(s)]: [true] when the constructor accepts the text [s],
    [false] when it raises. *)
Class NetAddr := {
  IPAddress : string → bool
}.

(** [Endpoint.to_json], decoded again by [json.loads]: an object. *)
Class EndpointJson := {
  Endpoint_to_json : Endpoint → gmap string json
}.

(** [pycalico.datastore.DatastoreClient] over a store [DS].
    [get_endpoints] reads, [set_endpoint] writes; either may raise. *)
Class DatastoreClient (DS : Type) := {
  get_endpoints : string → DS → result (list Endpoint);
  set_endpoint : KDEndpoint → DS → result DS
}.

(** ** The pod parser *)

Section Parser.
Context `{Constants}.

(** [labels = pod["metadata"].get("labels", {})] yields the mapping held by
    the event when there is one, a new empty one otherwise; the assignment
    [labels[K8S_NAMESPACE_LABEL] = namespace] then writes into that very
    mapping.  The first component of the result is the event afterwards. *)
Definition parse_pod (p : pod)
  : pod * result (string * string * string * gmap string string) :=
  match pod_metadata p with
  | None => (p, Raise (KeyError "metadata"))
  | Some md =>
    let labels0 := default ∅ (md_labels md) in
    match md_namespace md with
    | None => (p, Raise (KeyError "namespace"))
    | Some namespace =>
      match md_name md with
      | None => (p, Raise (KeyError "name"))
      | Some nm =>
        let wid := namespace +:+ "." +:+ nm in
        let labels1 := <[K8S_NAMESPACE_LABEL := namespace]> labels0 in
        let p' :=
          match md_labels md with
          | Some _ =>
            Pod (Some (Metadata (md_namespace md) (md_name md) (Some labels1)))
          | None => p
          end in
        (p', Return (wid, namespace, nm, labels1))
      end
    end
  end.
End Parser.

(** ** The endpoint adapter *)

Section Adapter.
Context `{NetAddr}.

(** [KDEndpoint.process_labels].  [not self.labels] holds of the empty
    mapping.  [IPAddress(None)] raises, and so does the constructor on a
    text it rejects; both leave [kd_public_ip = None].  [if kd_public_ip]
    is then the truth value of a text: false for [None] and for the empty
    text. *)
Definition process_labels (ep : KDEndpoint) : KDEndpoint :=
  let e := kd_endpoint ep in
  if decide (labels e = ∅) then MkKDEndpoint e None
  else
    let kd_public_ip :=
      match labels e !! "kuberdock-public-ip" with
      | Some v => if IPAddress v then Some v else None
      | None => None
      end in
    match kd_public_ip with
    | Some v =>
      if decide (v = "") then MkKDEndpoint e None
      else MkKDEndpoint e
             (Some ((λ ip_net, NatEntry (ip ip_net) v) <$> ipv4_nets e))
    | None => MkKDEndpoint e None
    end.

(** [KDEndpoint.from_endpoint]: a new object, the attributes copied one by
    one, [ipv4_nat] derived from the labels. *)
Definition from_endpoint (ep : Endpoint) : KDEndpoint :=
  let kd_ep :=
    {| kd_endpoint :=
         {| hostname := hostname ep; orchestrator_id := orchestrator_id ep;
            workload_id := workload_id ep; endpoint_id := endpoint_id ep;
            state := state ep; mac := mac ep; name := name ep;
            ipv4_nets := ipv4_nets ep; ipv6_nets := ipv6_nets ep;
            profile_ids := profile_ids ep;
            _original_json := _original_json ep;
            labels := labels ep |};
       ipv4_nat := None |} in
  process_labels kd_ep.
End Adapter.

Definition nat_entry_json (e : nat_entry) : json :=
  JObject [("int_ip", JString (int_ip e)); ("ext_ip", JString (ext_ip e))].

Section Serialiser.
Context `{EndpointJson}.

(** [KDEndpoint.to_json], up to the final [json.dumps]: the object [data].
    [if self.ipv4_nat] is false for [None] and for the empty list. *)
Definition to_json (ep : KDEndpoint) : gmap string json :=
  let data := Endpoint_to_json (kd_endpoint ep) in
  match ipv4_nat ep with
  | Some (e :: l) => <["ipv4_nat" := JArray (nat_entry_json <$> (e :: l))]> data
  | _ => data
  end.
End Serialiser.

(** ** Module level state and the handler monad *)

(** A call made on [client]. *)
Inductive client_call :=
  | GetEndpoints (orchestrator : string)
  | SetEndpoint (ep : KDEndpoint).

(** [label_cache], [endpoint_cache], the store that [client] talks to, and
    the calls made on [client] so far (oldest first). *)
Record globals (DS : Type) := Globals {
  label_cache : gmap string (gmap string string);
  endpoint_cache : gmap string KDEndpoint;
  datastore : DS;
  calls : list client_call
}.
Arguments Globals {DS} _ _ _ _.
Arguments label_cache {DS} _.
Arguments endpoint_cache {DS} _.
Arguments datastore {DS} _.
Arguments calls {DS} _.

Section Monad.
Context {DS : Type}.

Definition M (A : Type) : Type := globals DS → result A * globals DS.

#[export] Instance M_ret : MRet M := λ A a g, (Return a, g).
#[export] Instance M_bind : MBind M := λ A B f m g,
  match m g with
  | (Return a, g') => f a g'
  | (Raise e, g') => (Raise e, g')
  end.

Definition gets {A} (f : globals DS → A) : M A := λ g, (Return (f g), g).
Definition modify (f : globals DS → globals DS) : M unit :=
  λ g, (Return (), f g).

(** [try: body / except KeyError: handler]. *)
Definition except_KeyError {A} (body handler : M A) : M A := λ g,
  match body g with
  | (Raise (KeyError _), g') => handler g'
  | r => r
  end.

(** [d[k] = v] and [del d[k]] on the two caches; [del] raises [KeyError]
    on a key that is not there. *)
Definition setitem_label_cache (k : string) (v : gmap string string) : M unit :=
  modify (λ g, Globals (<[k := v]> (label_cache g)) (endpoint_cache g)
                       (datastore g) (calls g)).

Definition setitem_endpoint_cache (k : string) (v : KDEndpoint) : M unit :=
  modify (λ g, Globals (label_cache g) (<[k := v]> (endpoint_cache g))
                       (datastore g) (calls g)).

(** Attribute assignments on the endpoint object that the cache holds
    under [k]: the cache shows the new attributes from then on. *)
Definition mutate_cached_endpoint (k : string) (v : KDEndpoint) : M unit :=
  modify (λ g, Globals (label_cache g) (<[k := v]> (endpoint_cache g))
                       (datastore g) (calls g)).

Definition delitem_label_cache (k : string) : M unit := λ g,
  match label_cache g !! k with
  | Some _ => (Return (), Globals (delete k (label_cache g)) (endpoint_cache g)
                                  (datastore g) (calls g))
  | None => (Raise (KeyError k), g)
  end.

Definition delitem_endpoint_cache (k : string) : M unit := λ g,
  match endpoint_cache g !! k with
  | Some _ => (Return (), Globals (label_cache g) (delete k (endpoint_cache g))
                                  (datastore g) (calls g))
  | None => (Raise (KeyError k), g)
  end.

Context `{!DatastoreClient DS}.

(** The two calls on [client].  The call is recorded whether it returns or
    raises; a write that raises leaves the store as it was. *)
Definition client_get_endpoints (orchestrator : string) : M (list Endpoint) :=
  λ g,
  let g' := Globals (label_cache g) (endpoint_cache g) (datastore g)
                    (calls g ++ [GetEndpoints orchestrator]) in
  match get_endpoints orchestrator (datastore g) with
  | Return eps => (Return eps, g')
  | Raise e => (Raise e, g')
  end.

Definition client_set_endpoint (ep : KDEndpoint) : M unit := λ g,
  let log := calls g ++ [SetEndpoint ep] in
  match set_endpoint ep (datastore g) with
  | Return ds => (Return (), Globals (label_cache g) (endpoint_cache g) ds log)
  | Raise e =>
    (Raise e, Globals (label_cache g) (endpoint_cache g) (datastore g) log)
  end.
End Monad.
Arguments M : clear implicits.

(** ** The handlers *)

Section Handlers.
Context `{Constants, NetAddr} {DS : Type} `{!DatastoreClient DS}.

(** [load_caches]: the comprehension builds every [KDEndpoint] first, the
    loop then stores each under its [workload_id] in both caches.  Nothing
    is removed from either cache. *)
Definition load_caches : M DS unit :=
  eps ← client_get_endpoints "k8s";
  let endpoints := from_endpoint <$> eps in
  foldr (λ ep rest, setitem_endpoint_cache (workload_id (kd_endpoint ep)) ep;;
                    setitem_label_cache (workload_id (kd_endpoint ep))
                                        (labels (kd_endpoint ep));;
                    rest)
        (mret ()) endpoints.

(** The body of a handler once the event is parsed.  A handler returns the
    event as [parse_pod] left it together with the outcome. *)
Definition with_parsed_pod (p : pod)
    (body : string → gmap string string → M DS unit)
  : globals DS → pod * (result unit * globals DS) := λ g,
  match parse_pod p with
  | (p', Return (wid, _, _, lbls)) => (p', body wid lbls g)
  | (p', Raise e) => (p', (Raise e, g))
  end.

(** [add_pod]. *)
Definition add_pod (p : pod) : globals DS → pod * (result unit * globals DS) :=
  with_parsed_pod p (λ wid lbls, setitem_label_cache wid lbls).

(** [update_pod].  [not endpoint] is true of [None] only: an endpoint
    object defines neither a length nor a truth value.  The endpoint found
    is the object held by the cache, so the two statements that set its
    labels and recompute [ipv4_nat] change the cache entry there and then;
    the final assignment stores the same object again. *)
Definition update_pod (p : pod) : globals DS → pod * (result unit * globals DS) :=
  with_parsed_pod p (λ wid lbls,
    old_labels ← gets (λ g, label_cache g !! wid);
    if decide (old_labels = Some lbls) then mret ()
    else
      cached ← gets (λ g, endpoint_cache g !! wid);
      found ← match cached with
              | Some ep => mret (Some ep)
              | None => load_caches;; gets (λ g, endpoint_cache g !! wid)
              end;
      match found with
      | None => mret ()
      | Some ep =>
        let endpoint := process_labels
                          (MkKDEndpoint (set_labels lbls (kd_endpoint ep))
                                        (ipv4_nat ep)) in
        mutate_cached_endpoint wid endpoint;;
        client_set_endpoint endpoint;;
        setitem_label_cache wid lbls;;
        setitem_endpoint_cache wid endpoint
      end).

(** [delete_pod]. *)
Definition delete_pod (p : pod) : globals DS → pod * (result unit * globals DS) :=
  with_parsed_pod p (λ wid _,
    except_KeyError (delitem_label_cache wid) (mret ());;
    except_KeyError (delitem_endpoint_cache wid) (mret ())).
End Handlers.

(** ** Counting the calls on the client *)

Definition is_read (c : client_call) : bool :=
  match c with GetEndpoints _ => true | SetEndpoint _ => false end.

Definition is_write (c : client_call) : bool :=
  match c with GetEndpoints _ => false | SetEndpoint _ => true end.

Definition reads (l : list client_call) : nat := length (filter is_read l).
Definition writes (l : list client_call) : nat := length (filter is_write l).

Create Rewrite HintDb calls.

(** Evaluates [reads] and [writes] on an explicit list of calls, with the
    equations of the rewrite base [calls]. *)
Ltac count_calls :=
  autorewrite with calls; cbn [is_read is_write];
  try lia; try (split; lia).

(** The three callbacks, to speak of "any handler". *)
Inductive handler := AddPod | UpdatePod | DeletePod.

Definition run_handler `{Constants, NetAddr} {DS} `{!DatastoreClient DS}
    (h : handler) (p : pod) : globals DS → pod * (result unit * globals DS) :=
  match h with
  | AddPod => add_pod p
  | UpdatePod => update_pod p
  | DeletePod => delete_pod p
  end.

(** ** A concrete environment

    Used to run the handlers on explicit inputs: the namespace key of Calico,
    a checker that accepts the dotted quads of IPv4, a store that is the list
    of the endpoints written so far, and a base serialiser. *)

Module Sample.

Definition constants : Constants :=
  {| K8S_NAMESPACE_LABEL := "calico/k8s_ns" |}.

Definition is_digit (c : ascii) : bool :=
  let n := nat_of_ascii c in (48 <=? n)%nat && (n <=? 57)%nat.

Fixpoint decimal (acc : nat) (s : string) : option nat :=
  match s with
  | EmptyString => Some acc
  | String c s' =>
    if is_digit c then decimal (10 * acc + (nat_of_ascii c - 48)) s' else None
  end.

Definition octet (s : string) : bool :=
  match s with
  | EmptyString => false
  | _ =>
    (String.length s <=? 3)%nat &&
    match decimal 0 s with Some n => (n <=? 255)%nat | None => false end
  end.

Fixpoint fields (sep : ascii) (s : string) : list string :=
  match s with
  | EmptyString => [EmptyString]
  | String c s' =>
    if Ascii.eqb c sep then EmptyString :: fields sep s'
    else match fields sep s' with
         | f :: fs => String c f :: fs
         | [] => [String c EmptyString]
         end
  end.

Definition dotted_quad (s : string) : bool :=
  match fields "." s with
  | [a; b; c; d] => octet a && octet b && octet c && octet d
  | _ => false
  end.

Definition netaddr : NetAddr := {| IPAddress := dotted_quad |}.

Definition same_endpoint (a b : Endpoint) : bool :=
  bool_decide (hostname a = hostname b ∧ orchestrator_id a = orchestrator_id b ∧
               workload_id a = workload_id b ∧ endpoint_id a = endpoint_id b).

Fixpoint put (e : Endpoint) (ds : list Endpoint) : list Endpoint :=
  match ds with
  | [] => [e]
  | x :: ds' => if same_endpoint x e then e :: ds' else x :: put e ds'
  end.

Definition client : DatastoreClient (list Endpoint) :=
  {| get_endpoints orchestrator ds :=
       Return (filter (λ e, orchestrator_id e = orchestrator) ds);
     set_endpoint ep ds := Return (put (kd_endpoint ep) ds) |}.

(** A client whose writes fail. *)
Definition readonly_client : DatastoreClient (list Endpoint) :=
  {| get_endpoints orchestrator ds :=
       Return (filter (λ e, orchestrator_id e = orchestrator) ds);
     set_endpoint ep ds := Raise (ClientError "write refused") |}.

Definition endpoint_json : EndpointJson :=
  {| Endpoint_to_json ep :=
       list_to_map
         [("state", JString (state ep)); ("name", JString (name ep));
          ("mac", JString (mac ep));
          ("profile_ids", JArray (JString <$> profile_ids ep));
          ("labels", JObject (prod_map id JString <$> map_to_list (labels ep)));
          ("ipv4_nets", JArray ((λ n, JString (ip n)) <$> ipv4_nets ep));
          ("ipv6_nets", JArray ((λ n, JString (ip n)) <$> ipv6_nets ep))] |}.

Definition endpoint (wid : string) (nets : list IPNetwork)
    (lbls : gmap string string) : Endpoint :=
  {| hostname := "node1"; orchestrator_id := "k8s"; workload_id := wid;
     endpoint_id := "eth0"; state := "active"; mac := "ee:ee:ee:ee:ee:ee";
     name := "cali0"; ipv4_nets := nets; ipv6_nets := [];
     profile_ids := []; _original_json := None; labels := lbls |}.

Definition event (ns nm : string) (lbls : option (gmap string string)) : pod :=
  Pod (Some (Metadata (Some ns) (Some nm) lbls)).

(** The pod [default/web] asks for the public address [1.2.3.4]. *)
Definition web_labels : gmap string string :=
  {["kuberdock-public-ip" := "1.2.3.4"]}.

Definition web_parsed : gmap string string :=
  <["calico/k8s_ns" := "default"]> web_labels.

Definition web_event : pod := event "default" "web" (Some web_labels).

(** The same event once parsed. *)
Definition web_event' : pod := event "default" "web" (Some web_parsed).

(** Its endpoint, as the plugin created it, and as [update_pod] writes it. *)
Definition web_endpoint : Endpoint :=
  endpoint "default.web" [Net "10.0.0.5" 32] ∅.

Definition web_written : KDEndpoint :=
  MkKDEndpoint (endpoint "default.web" [Net "10.0.0.5" 32] web_parsed)
               (Some [NatEntry "10.0.0.5" "1.2.3.4"]).

(** Empty caches over a store that holds the endpoint, and over an empty
    store. *)
Definition started : globals (list Endpoint) :=
  Globals ∅ ∅ [web_endpoint] [].

Definition nothing_stored : globals (list Endpoint) :=
  Globals ∅ ∅ [] [].

(** The endpoint is cached already, the labels are not. *)
Definition cached : globals (list Endpoint) :=
  Globals ∅ {["default.web" := MkKDEndpoint web_endpoint None]}
          [web_endpoint] [].

(** Caches that remember a workload [default.old] which the store no longer
    has. *)
Definition old_endpoint : KDEndpoint :=
  MkKDEndpoint (endpoint "default.old" [] ∅) None.

Definition stale : globals (list Endpoint) :=
  Globals {["default.old" := ∅]} {["default.old" := old_endpoint]}
          [web_endpoint] [].

End Sample.

(** ** The caches after a reload

    The loop of [load_caches], read as a function on each cache. *)

Definition stored_labels (eps : list KDEndpoint)
    (m : gmap string (gmap string string)) : gmap string (gmap string string) :=
  foldl (λ m ep, <[workload_id (kd_endpoint ep) := labels (kd_endpoint ep)]> m)
        m eps.

Definition stored_endpoints (eps : list KDEndpoint)
    (m : gmap string KDEndpoint) : gmap string KDEndpoint :=
  foldl (λ m ep, <[workload_id (kd_endpoint ep) := ep]> m) m eps.

(** The end of [update_pod], from the assignment of the labels on: the
    endpoint [ep] was found under [wid]. *)
Definition write_back {DS} `{NetAddr, !DatastoreClient DS}
    (wid : string) (lbls : gmap string string) (ep : KDEndpoint)
    (g : globals DS) : result unit * globals DS :=
  let endpoint :=
    process_labels (MkKDEndpoint (set_labels lbls (kd_endpoint ep)) (ipv4_nat ep)) in
  let log := calls g ++ [SetEndpoint endpoint] in
  match set_endpoint endpoint (datastore g) with
  | Return ds =>
    (Return (), Globals (<[wid := lbls]> (label_cache g))
                        (<[wid := endpoint]> (endpoint_cache g)) ds log)
  | Raise e =>
    (Raise e, Globals (label_cache g) (<[wid := endpoint]> (endpoint_cache g))
                      (datastore g) log)
  end.

(** Every cached endpoint sits under its own workload id. *)
Definition keys_agree {DS} (g : globals DS) : Prop :=
  ∀ k ep, endpoint_cache g !! k = Some ep → workload_id (kd_endpoint ep) = k.

(** The NAT mapping of every cached endpoint is the one that
    [process_labels] derives from its own labels and prefixes. *)
Definition nat_derived `{NetAddr} {DS} (g : globals DS) : Prop :=
  ∀ k ep, endpoint_cache g !! k = Some ep → process_labels ep = ep.

(** A text with a dot in it. *)
Fixpoint has_dot (s : string) : bool :=
  match s with
  | EmptyString => false
  | String c s' => Ascii.eqb c "." || has_dot s'
  end.

(** A store that cannot be reached: every call on the client raises. *)
Module Faulty.

Definition client : DatastoreClient (list Endpoint) :=
  {| get_endpoints orchestrator ds := Raise (ClientError "store unreachable");
     set_endpoint ep ds := Raise (ClientError "store unreachable") |}.

End Faulty.

(** More inputs to run the handlers on. *)
Module Cases.

(** A pod that declares a value of its own under the reserved namespace key. *)
Definition spoofed_labels : gmap string string :=
  <["app" := "db"]> {["calico/k8s_ns" := "kube-system"]}.

Definition spoofed_event : pod :=
  Sample.event "default" "web" (Some spoofed_labels).

(** An earlier endpoint of the workload [default.web], on another address. *)
Definition web_endpoint_before : Endpoint :=
  Sample.endpoint "default.web" [Net "10.0.0.4" 32] ∅.

Definition stored_twice : globals (list Endpoint) :=
  Globals ∅ ∅ [web_endpoint_before; Sample.web_endpoint] [].

(** The endpoint in the store carries the labels of the event already. *)
Definition web_endpoint_labelled : Endpoint :=
  Sample.endpoint "default.web" [Net "10.0.0.5" 32] Sample.web_parsed.

Definition stored_labelled : globals (list Endpoint) :=
  Globals ∅ ∅ [web_endpoint_labelled] [].

End Cases.

(** * Properties *)

Section Facts.
Context `{Constants, NetAddr} {DS : Type} `{!DatastoreClient DS}.
Implicit Types (p : pod) (g : globals DS) (wid ns nm : string).
Implicit Types (lbls : gmap string string) (ep : KDEndpoint).

(** *** The parser *)

Lemma parse_pod_Return p p' wid ns nm lbls :
  parse_pod p = (p', Return (wid, ns, nm, lbls)) →
  ∃ md, pod_metadata p = Some md ∧ md_namespace md = Some ns ∧
        md_name md = Some nm ∧ wid = ns +:+ "." +:+ nm ∧
        lbls = <[K8S_NAMESPACE_LABEL := ns]> (default ∅ (md_labels md)) ∧
        p' = match md_labels md with
             | Some _ => Pod (Some (Metadata (Some ns) (Some nm) (Some lbls)))
             | None => p
             end.
Proof.
  unfold parse_pod. destruct (pod_metadata p) as [md|] eqn:Hmd; [|done].
  destruct (md_namespace md) as [ns'|] eqn:Hns; [|done].
  destruct (md_name md) as [nm'|] eqn:Hnm; [|done].
  intros [= <- <- <- <- <-]. exists md. by rewrite Hns, Hnm.
Qed.

Lemma parse_pod_Raise p p' e :
  parse_pod p = (p', Raise e) → p' = p.
Proof.
  unfold parse_pod. destruct (pod_metadata p) as [md|]; [|congruence].
  destruct (md_namespace md); [|congruence].
  destruct (md_name md); congruence.
Qed.

Lemma parse_pod_defined md ns nm :
  md_namespace md = Some ns → md_name md = Some nm →
  parse_pod (Pod (Some md)) =
    (match md_labels md with
     | Some d => Pod (Some (Metadata (Some ns) (Some nm)
                              (Some (<[K8S_NAMESPACE_LABEL := ns]> d))))
     | None => Pod (Some md)
     end,
     Return (ns +:+ "." +:+ nm, ns, nm,
             <[K8S_NAMESPACE_LABEL := ns]> (default ∅ (md_labels md)))).
Proof.
  intros Hns Hnm. unfold parse_pod. cbn. rewrite Hns, Hnm.
  by destruct (md_labels md).
Qed.

(** Parsing the event again, as the first parse left it, gives the same
    answer and changes nothing more. *)
Lemma parse_pod_again p p' wid ns nm lbls :
  parse_pod p = (p', Return (wid, ns, nm, lbls)) →
  parse_pod p' = (p', Return (wid, ns, nm, lbls)).
Proof.
  intros Hp. destruct (parse_pod_Return _ _ _ _ _ _ Hp)
    as (md & Hmd & Hns & Hnm & -> & -> & ->).
  destruct (md_labels md) as [d|] eqn:Hd; [|done].
  unfold parse_pod. cbn. by rewrite insert_insert_eq.
Qed.

(** *** The monad *)

Lemma with_parsed_pod_Return p p' wid ns nm lbls body g :
  parse_pod p = (p', Return (wid, ns, nm, lbls)) →
  with_parsed_pod p body g = (p', body wid lbls g).
Proof. intros Hp. unfold with_parsed_pod. by rewrite Hp. Qed.

Lemma with_parsed_pod_Raise p p' e body g :
  parse_pod p = (p', Raise e) →
  with_parsed_pod p body g = (p, (Raise e, g)).
Proof.
  intros Hp. unfold with_parsed_pod. rewrite Hp.
  by rewrite (parse_pod_Raise _ _ _ Hp).
Qed.

(** *** The reload *)

Lemma stored_labels_union (eps : list KDEndpoint) m :
  stored_labels eps m = stored_labels eps ∅ ∪ m.
Proof.
  unfold stored_labels. revert m.
  induction eps as [|ep eps IH]; intros m; cbn.
  - by rewrite (left_id_L ∅ (∪)).
  - rewrite IH, (IH (<[_ := _]> ∅)).
    by rewrite <-(assoc_L (∪)), <-insert_union_l, (left_id_L ∅ (∪)).
Qed.

Lemma stored_endpoints_union (eps : list KDEndpoint) m :
  stored_endpoints eps m = stored_endpoints eps ∅ ∪ m.
Proof.
  unfold stored_endpoints. revert m.
  induction eps as [|ep eps IH]; intros m; cbn.
  - by rewrite (left_id_L ∅ (∪)).
  - rewrite IH, (IH (<[_ := _]> ∅)).
    by rewrite <-(assoc_L (∪)), <-insert_union_l, (left_id_L ∅ (∪)).
Qed.

(** The two caches are filled in step: the labels stored under a key are
    those of the endpoint stored under it. *)
Lemma stored_in_step (eps : list KDEndpoint) ml me k :
  ml !! k = (labels ∘ kd_endpoint) <$> me !! k →
  stored_labels eps ml !! k =
    (labels ∘ kd_endpoint) <$> stored_endpoints eps me !! k.
Proof.
  unfold stored_labels, stored_endpoints. revert ml me.
  induction eps as [|ep eps IH]; intros ml me Hk; cbn; [done|].
  apply IH. destruct (decide (workload_id (kd_endpoint ep) = k)) as [->|Hne].
  - by rewrite !lookup_insert_eq.
  - by rewrite !lookup_insert_ne.
Qed.

Lemma stored_endpoints_lookup (eps : list KDEndpoint) m k :
  stored_endpoints eps m !! k =
    match stored_endpoints eps ∅ !! k with
    | Some ep => Some ep
    | None => m !! k
    end.
Proof.
  rewrite stored_endpoints_union, lookup_union.
  destruct (stored_endpoints eps ∅ !! k); [|by rewrite (left_id_L None _)].
  by destruct (m !! k).
Qed.

Lemma stored_labels_lookup (eps : list KDEndpoint) m k :
  stored_labels eps m !! k =
    match stored_labels eps ∅ !! k with
    | Some l => Some l
    | None => m !! k
    end.
Proof.
  rewrite stored_labels_union, lookup_union.
  destruct (stored_labels eps ∅ !! k); [|by rewrite (left_id_L None _)].
  by destruct (m !! k).
Qed.

(** A key of the loaded part is the workload id of a loaded endpoint, and
    the entry is that endpoint. *)
Lemma stored_endpoints_Some (eps : list KDEndpoint) k ep :
  stored_endpoints eps ∅ !! k = Some ep →
  ep ∈ eps ∧ workload_id (kd_endpoint ep) = k.
Proof.
  induction eps as [|x eps IH] using rev_ind; [done|].
  unfold stored_endpoints in *. rewrite foldl_snoc.
  destruct (decide (workload_id (kd_endpoint x) = k)) as [<-|Hne].
  - rewrite lookup_insert_eq. intros [= ->]. split; [|done].
    apply elem_of_app. right. by apply list_elem_of_singleton.
  - rewrite lookup_insert_ne by done. intros Hk.
    destruct (IH Hk) as [Hin Hw]. split; [|done].
    apply elem_of_app. by left.
Qed.

Lemma stored_endpoints_None (eps : list KDEndpoint) k :
  stored_endpoints eps ∅ !! k = None ↔
  k ∉ (workload_id ∘ kd_endpoint) <$> eps.
Proof.
  induction eps as [|x eps IH] using rev_ind.
  - cbn. split; [intros _; apply not_elem_of_nil | done].
  - unfold stored_endpoints in *. rewrite foldl_snoc, fmap_app, elem_of_app.
    cbn. rewrite list_elem_of_singleton.
    destruct (decide (workload_id (kd_endpoint x) = k)) as [<-|Hne].
    + rewrite lookup_insert_eq. split; [done|]. intros Hn. destruct Hn. by right.
    + rewrite lookup_insert_ne by done. rewrite IH. split.
      * intros Hn [Hin|Heq]; [by apply Hn | by apply Hne].
      * intros Hn Hin. apply Hn. by left.
Qed.

Lemma stored_labels_idemp (eps : list KDEndpoint) m :
  stored_labels eps (stored_labels eps m) = stored_labels eps m.
Proof.
  rewrite (stored_labels_union eps (stored_labels eps m)).
  rewrite (stored_labels_union eps m).
  by rewrite (assoc_L (∪)), (idemp_L (∪)).
Qed.

Lemma stored_endpoints_idemp (eps : list KDEndpoint) m :
  stored_endpoints eps (stored_endpoints eps m) = stored_endpoints eps m.
Proof.
  rewrite (stored_endpoints_union eps (stored_endpoints eps m)).
  rewrite (stored_endpoints_union eps m).
  by rewrite (assoc_L (∪)), (idemp_L (∪)).
Qed.

Lemma load_loop (eps : list KDEndpoint) g :
  foldr (λ ep rest,
           setitem_endpoint_cache (workload_id (kd_endpoint ep)) ep;;
           setitem_label_cache (workload_id (kd_endpoint ep))
                               (labels (kd_endpoint ep));;
           rest)
        (mret ()) eps g =
  (Return (), Globals (stored_labels eps (label_cache g))
                      (stored_endpoints eps (endpoint_cache g))
                      (datastore g) (calls g)).
Proof.
  revert g. induction eps as [|ep eps IH]; intros g.
  - by destruct g.
  - cbn. unfold mbind, M_bind at 1 2. cbn. by rewrite IH.
Qed.

Lemma load_caches_eq g :
  load_caches g =
    let log := calls g ++ [GetEndpoints "k8s"] in
    match get_endpoints "k8s" (datastore g) with
    | Return eps =>
      (Return (),
       Globals (stored_labels (from_endpoint <$> eps) (label_cache g))
               (stored_endpoints (from_endpoint <$> eps) (endpoint_cache g))
               (datastore g) log)
    | Raise e =>
      (Raise e, Globals (label_cache g) (endpoint_cache g) (datastore g) log)
    end.
Proof.
  unfold load_caches, mbind, M_bind at 1, client_get_endpoints. cbn.
  destruct (get_endpoints "k8s" (datastore g)) as [eps|e]; [|done].
  by rewrite load_loop.
Qed.

(** *** The three ways through [update_pod] *)

Lemma update_pod_unchanged p p' wid ns nm lbls g :
  parse_pod p = (p', Return (wid, ns, nm, lbls)) →
  label_cache g !! wid = Some lbls →
  update_pod p g = (p', (Return (), g)).
Proof.
  intros Hp Hl. unfold update_pod.
  rewrite (with_parsed_pod_Return _ _ _ _ _ _ _ _ Hp).
  unfold mbind, M_bind, gets. cbn. by rewrite decide_True.
Qed.

Lemma update_pod_cached p p' wid ns nm lbls g ep :
  parse_pod p = (p', Return (wid, ns, nm, lbls)) →
  label_cache g !! wid ≠ Some lbls →
  endpoint_cache g !! wid = Some ep →
  update_pod p g = (p', write_back wid lbls ep g).
Proof.
  intros Hp Hl He. unfold update_pod.
  rewrite (with_parsed_pod_Return _ _ _ _ _ _ _ _ Hp).
  unfold mbind, M_bind at 1, gets at 1. cbn. rewrite decide_False by done.
  unfold M_bind at 1, gets at 1. cbn. rewrite He.
  unfold M_bind, mret, M_ret, write_back, mutate_cached_endpoint,
    client_set_endpoint, setitem_label_cache, setitem_endpoint_cache, modify.
  cbn. destruct (set_endpoint _ (datastore g)) as [ds|e]; cbn; [|done].
  by rewrite insert_insert_eq.
Qed.

Lemma update_pod_reload p p' wid ns nm lbls g :
  parse_pod p = (p', Return (wid, ns, nm, lbls)) →
  label_cache g !! wid ≠ Some lbls →
  endpoint_cache g !! wid = None →
  update_pod p g =
    (p', match load_caches g with
         | (Return _, g1) =>
           match endpoint_cache g1 !! wid with
           | Some ep => write_back wid lbls ep g1
           | None => (Return (), g1)
           end
         | (Raise e, g1) => (Raise e, g1)
         end).
Proof.
  intros Hp Hl He. unfold update_pod.
  rewrite (with_parsed_pod_Return _ _ _ _ _ _ _ _ Hp).
  unfold mbind, M_bind at 1, gets at 1. cbn. rewrite decide_False by done.
  unfold M_bind at 1, gets at 1. cbn. rewrite He.
  unfold M_bind, gets.
  destruct (load_caches g) as [[[]|e] g1]; [|done].
  destruct (endpoint_cache g1 !! wid) as [ep|]; [|done].
  unfold M_bind, mret, M_ret, write_back, mutate_cached_endpoint,
    client_set_endpoint, setitem_label_cache, setitem_endpoint_cache, modify.
  cbn. destruct (set_endpoint _ (datastore g1)) as [ds|e]; cbn; [|done].
  by rewrite insert_insert_eq.
Qed.

Lemma write_back_calls wid lbls ep g :
  calls (write_back wid lbls ep g).2 =
    calls g ++ [SetEndpoint (process_labels
      (MkKDEndpoint (set_labels lbls (kd_endpoint ep)) (ipv4_nat ep)))].
Proof. unfold write_back. by destruct (set_endpoint _ _). Qed.

Lemma process_labels_endpoint ep :
  kd_endpoint (process_labels ep) = kd_endpoint ep.
Proof.
  unfold process_labels. case_decide; [done|].
  destruct (labels (kd_endpoint ep) !! _) as [v|]; [|done].
  destruct (IPAddress v); [|done]. by case_decide.
Qed.

(** *** Counting calls *)

Lemma reads_app (l k : list client_call) : reads (l ++ k) = reads l + reads k.
Proof. unfold reads. by rewrite filter_app, length_app. Qed.

Lemma writes_app (l k : list client_call) : writes (l ++ k) = writes l + writes k.
Proof. unfold writes. by rewrite filter_app, length_app. Qed.

Lemma reads_nil : reads [] = 0.
Proof. done. Qed.

Lemma writes_nil : writes [] = 0.
Proof. done. Qed.

Lemma reads_cons (c : client_call) l :
  reads (c :: l) = (if is_read c then 1 else 0) + reads l.
Proof. unfold reads. rewrite filter_cons. by destruct c. Qed.

Lemma writes_cons (c : client_call) l :
  writes (c :: l) = (if is_write c then 1 else 0) + writes l.
Proof. unfold writes. rewrite filter_cons. by destruct c. Qed.

(** The calls that one run of [update_pod] adds: nothing, one write, one
    read of the tag ["k8s"], or that read followed by one write. *)
Lemma update_pod_shape p g :
  ∃ w, calls (update_pod p g).2.2 = calls g ++ w ∧
       (w = [] ∨ (∃ e, w = [SetEndpoint e]) ∨ w = [GetEndpoints "k8s"] ∨
        ∃ e, w = [GetEndpoints "k8s"; SetEndpoint e]).
Proof.
  destruct (parse_pod p) as [p' [[[[wid ns] nm] lbls]|e]] eqn:Hp.
  - destruct (decide (label_cache g !! wid = Some lbls)) as [Hl|Hl].
    { rewrite (update_pod_unchanged _ _ _ _ _ _ _ Hp Hl).
      exists []. by rewrite (right_id_L [] (++)); auto. }
    destruct (endpoint_cache g !! wid) as [ep|] eqn:He.
    { rewrite (update_pod_cached _ _ _ _ _ _ _ _ Hp Hl He). cbn.
      rewrite write_back_calls. eexists. split; [done|]. right. left. by eexists. }
    rewrite (update_pod_reload _ _ _ _ _ _ _ Hp Hl He), load_caches_eq. cbn.
    destruct (get_endpoints "k8s" (datastore g)) as [eps|e]; cbn.
    + destruct (stored_endpoints _ _ !! wid) as [ep|]; cbn.
      * rewrite write_back_calls. cbn. rewrite <-(assoc_L (++)). cbn.
        eexists. split; [done|]. do 3 right. by eexists.
      * eexists. split; [done|]. auto.
    + eexists. split; [done|]. auto.
  - unfold update_pod. rewrite (with_parsed_pod_Raise _ _ _ _ _ Hp). cbn.
    exists []. by rewrite (right_id_L [] (++)); auto.
Qed.

(** *** Cache keys *)

Lemma from_endpoint_endpoint (e : Endpoint) : kd_endpoint (from_endpoint e) = e.
Proof. unfold from_endpoint. rewrite process_labels_endpoint. by destruct e. Qed.

Lemma keys_agree_stored (eps : list KDEndpoint) (m : gmap string KDEndpoint) :
  (∀ k ep, m !! k = Some ep → workload_id (kd_endpoint ep) = k) →
  ∀ k ep, stored_endpoints eps m !! k = Some ep →
          workload_id (kd_endpoint ep) = k.
Proof.
  intros Hm k ep. rewrite stored_endpoints_lookup.
  destruct (stored_endpoints eps ∅ !! k) as [ep'|] eqn:Hk.
  - intros [= ->]. by apply stored_endpoints_Some in Hk as [_ ?].
  - apply Hm.
Qed.

(** *** [add_pod] and [delete_pod] as equations *)

Lemma add_pod_eq p p' wid ns nm lbls g :
  parse_pod p = (p', Return (wid, ns, nm, lbls)) →
  add_pod p g =
    (p', (Return (), Globals (<[wid := lbls]> (label_cache g)) (endpoint_cache g)
                             (datastore g) (calls g))).
Proof.
  intros Hp. unfold add_pod.
  by rewrite (with_parsed_pod_Return _ _ _ _ _ _ _ _ Hp).
Qed.

Lemma delete_pod_eq p p' wid ns nm lbls g :
  parse_pod p = (p', Return (wid, ns, nm, lbls)) →
  delete_pod p g =
    (p', (Return (), Globals (delete wid (label_cache g))
                             (delete wid (endpoint_cache g))
                             (datastore g) (calls g))).
Proof.
  intros Hp. unfold delete_pod.
  rewrite (with_parsed_pod_Return _ _ _ _ _ _ _ _ Hp).
  unfold mbind, M_bind, except_KeyError, delitem_label_cache,
    delitem_endpoint_cache, mret, M_ret.
  destruct (label_cache g !! wid) as [l|] eqn:Hl;
    destruct (endpoint_cache g !! wid) as [e|] eqn:He; cbn; rewrite ?He; cbn;
    rewrite ?(delete_id _ _ Hl), ?(delete_id _ _ He); by destruct g.
Qed.
End Facts.

#[local] Hint Rewrite reads_app writes_app reads_cons writes_cons
  reads_nil writes_nil : calls.

Section Claims.
Context `{Constants, NetAddr, EndpointJson} {DS : Type} `{!DatastoreClient DS}.
Implicit Types (p : pod) (g : globals DS) (wid ns nm : string).
Implicit Types (lbls : gmap string string) (ep : KDEndpoint).

(** C9.  A pod event that carries a namespace and a name is parsed, and
    the label set returned maps the reserved namespace key to the
    namespace of the event, whatever the namespace (["default"] included)
    and whatever the labels the pod declared; with no declared labels the
    label set is that single entry. *)
Theorem parse_pod_namespace_label (md : metadata) ns nm :
  md_namespace md = Some ns →
  md_name md = Some nm →
  ∃ p' lbls,
    parse_pod (Pod (Some md)) = (p', Return (ns +:+ "." +:+ nm, ns, nm, lbls)) ∧
    lbls !! K8S_NAMESPACE_LABEL = Some ns ∧
    (md_labels md = None → lbls = {[K8S_NAMESPACE_LABEL := ns]}).
Proof.
  intros Hns Hnm. eexists _, _.
  split; [by apply parse_pod_defined|].
  split; [by rewrite lookup_insert_eq|].
  intros ->. cbn. by rewrite insert_empty.
Qed.

(** C5, amended.  [parse_pod] leaves the module level state alone, and it
    leaves the event alone when it raises or when the event has no label
    mapping.  When the event has a label mapping, the reserved namespace
    key is written into that mapping: the event then holds the label set
    that is returned, its namespace and name being as before. *)
Theorem parse_pod_effect p :
  (∀ g, ∃ r, with_parsed_pod p (λ _ _, mret ()) g = ((parse_pod p).1, (r, g))) ∧
  (∀ e, (parse_pod p).2 = Raise e → (parse_pod p).1 = p) ∧
  (∀ md, pod_metadata p = Some md → md_labels md = None →
         (parse_pod p).1 = p) ∧
  (∀ md d wid ns nm lbls,
     pod_metadata p = Some md → md_labels md = Some d →
     (parse_pod p).2 = Return (wid, ns, nm, lbls) →
     lbls = <[K8S_NAMESPACE_LABEL := ns]> d ∧
     (parse_pod p).1 =
       Pod (Some (Metadata (md_namespace md) (md_name md) (Some lbls)))).
Proof.
  split; [|split; [|split]].
  - intros g. unfold with_parsed_pod.
    destruct (parse_pod p) as [p' [[[[wid ns] nm] lbls]|e]]; by eexists.
  - intros e He. destruct (parse_pod p) as [p' r] eqn:Hp. cbn in *. subst r.
    by apply parse_pod_Raise in Hp.
  - intros md Hmd Hl. unfold parse_pod. rewrite Hmd.
    destruct (md_namespace md); [|done]. destruct (md_name md); [|done].
    by rewrite Hl.
  - intros md d wid ns nm lbls Hmd Hd Hr.
    destruct (parse_pod p) as [p' r] eqn:Hp. cbn in *. subst r.
    apply parse_pod_Return in Hp as (md' & Hmd' & Hns & Hnm & _ & -> & ->).
    simplify_eq. by rewrite Hd, Hns, Hnm.
Qed.

(** C6.  After [add_pod] on an event that parses, the label cache maps the
    workload id [namespace.name] to the parsed label set (which carries the
    namespace key), whatever was there before; the endpoint cache and the
    store are as before and no call was made on the client. *)
Theorem add_pod_label_cache p p' wid ns nm lbls g :
  parse_pod p = (p', Return (wid, ns, nm, lbls)) →
  ∃ g', add_pod p g = (p', (Return (), g')) ∧
        wid = ns +:+ "." +:+ nm ∧
        lbls !! K8S_NAMESPACE_LABEL = Some ns ∧
        label_cache g' = <[wid := lbls]> (label_cache g) ∧
        label_cache g' !! wid = Some lbls ∧
        endpoint_cache g' = endpoint_cache g ∧
        datastore g' = datastore g ∧
        calls g' = calls g.
Proof.
  intros Hp. unfold add_pod.
  rewrite (with_parsed_pod_Return _ _ _ _ _ _ _ _ Hp).
  apply parse_pod_Return in Hp as (md & _ & _ & _ & -> & -> & _).
  eexists. split; [reflexivity|]. cbn.
  by rewrite !lookup_insert_eq.
Qed.

(** C7.  [delete_pod] on an event that parses returns normally in every
    case: the workload is then in neither cache, a cache that did not hold
    it is as before (the [KeyError] of [del] is caught), the other
    workloads are kept, the store is as before and no call was made on the
    client. *)
Theorem delete_pod_swallows_missing p p' wid ns nm lbls g :
  parse_pod p = (p', Return (wid, ns, nm, lbls)) →
  ∃ g', delete_pod p g = (p', (Return (), g')) ∧
        label_cache g' = delete wid (label_cache g) ∧
        endpoint_cache g' = delete wid (endpoint_cache g) ∧
        label_cache g' !! wid = None ∧
        endpoint_cache g' !! wid = None ∧
        (label_cache g !! wid = None → label_cache g' = label_cache g) ∧
        (endpoint_cache g !! wid = None → endpoint_cache g' = endpoint_cache g) ∧
        datastore g' = datastore g ∧
        calls g' = calls g.
Proof.
  intros Hp. unfold delete_pod.
  rewrite (with_parsed_pod_Return _ _ _ _ _ _ _ _ Hp).
  unfold mbind, M_bind, except_KeyError, delitem_label_cache,
    delitem_endpoint_cache, mret, M_ret.
  destruct (label_cache g !! wid) as [l|] eqn:Hl;
    destruct (endpoint_cache g !! wid) as [e|] eqn:He; cbn; rewrite ?He; cbn;
    (eexists; split; [reflexivity|]); cbn;
    rewrite ?lookup_delete_eq, ?(delete_id _ _ Hl), ?(delete_id _ _ He);
    repeat split; try done; intros; by rewrite ?delete_id.
Qed.

(** C2.  For an endpoint whose label set is not empty, [process_labels]
    keeps the inherited attributes and sets [ipv4_nat] from the value under
    ["kuberdock-public-ip"]: when the value is an address that
    [IPAddress] accepts, one entry per element of [ipv4_nets], in order,
    pairing the address of that prefix with the value; [None] when the
    value is rejected or the key is absent.  So ["1.2.3.4"] over the prefix
    [10.0.0.5/32] gives the single pair ([10.0.0.5], [1.2.3.4]) and
    ["not-an-ip"] gives [None]; [process_labels] is total, it never
    raises. *)
Theorem process_labels_nat ep :
  IPAddress "" = false →
  IPAddress "1.2.3.4" = true →
  IPAddress "not-an-ip" = false →
  labels (kd_endpoint ep) ≠ ∅ →
  kd_endpoint (process_labels ep) = kd_endpoint ep ∧
  ipv4_nat (process_labels ep) =
    match labels (kd_endpoint ep) !! "kuberdock-public-ip" with
    | Some v =>
      if IPAddress v
      then Some ((λ n, NatEntry (ip n) v) <$> ipv4_nets (kd_endpoint ep))
      else None
    | None => None
    end ∧
  (∀ v l, ipv4_nat (process_labels ep) = Some l →
          labels (kd_endpoint ep) !! "kuberdock-public-ip" = Some v →
          length l = length (ipv4_nets (kd_endpoint ep)) ∧
          ∀ i n, ipv4_nets (kd_endpoint ep) !! i = Some n →
                 l !! i = Some (NatEntry (ip n) v)) ∧
  (labels (kd_endpoint ep) !! "kuberdock-public-ip" = Some "1.2.3.4" →
   ipv4_nets (kd_endpoint ep) = [Net "10.0.0.5" 32] →
   ipv4_nat (process_labels ep) = Some [NatEntry "10.0.0.5" "1.2.3.4"]) ∧
  (labels (kd_endpoint ep) !! "kuberdock-public-ip" = Some "not-an-ip" →
   ipv4_nat (process_labels ep) = None).
Proof.
  intros Hempty Hgood Hbad Hne.
  split; [apply process_labels_endpoint|].
  assert (Heq : ipv4_nat (process_labels ep) =
    match labels (kd_endpoint ep) !! "kuberdock-public-ip" with
    | Some v =>
      if IPAddress v
      then Some ((λ n, NatEntry (ip n) v) <$> ipv4_nets (kd_endpoint ep))
      else None
    | None => None
    end).
  { unfold process_labels. rewrite decide_False by done.
    destruct (labels (kd_endpoint ep) !! _) as [v|]; [|done].
    destruct (IPAddress v) eqn:Hv; [|done].
    case_decide as Hv'; [|done]. subst v. congruence. }
  split; [done|]. rewrite Heq. split; [|split].
  - intros v l Hl Hv. rewrite Hv in Hl.
    destruct (IPAddress v); [|done]. injection Hl as <-.
    split; [by rewrite length_fmap|].
    intros i n Hi. by rewrite list_lookup_fmap, Hi.
  - intros -> ->. by rewrite Hgood.
  - intros ->. by rewrite Hbad.
Qed.

(** C10.  The base serialiser not emitting the key itself, the document of
    [to_json] has the key ["ipv4_nat"] exactly when [ipv4_nat] is a list
    with an element.  With an accepted public address and no IPv4 prefix,
    [process_labels] sets [ipv4_nat] to the empty list, not to [None];
    [to_json] leaves the key out, and the document is the one of the same
    endpoint with [ipv4_nat = None]. *)
Theorem to_json_ipv4_nat ep :
  IPAddress "" = false →
  Endpoint_to_json (kd_endpoint ep) !! "ipv4_nat" = None →
  (is_Some (to_json ep !! "ipv4_nat") ↔ ∃ e l, ipv4_nat ep = Some (e :: l)) ∧
  (∀ v, labels (kd_endpoint ep) !! "kuberdock-public-ip" = Some v →
        IPAddress v = true →
        ipv4_nets (kd_endpoint ep) = [] →
        ipv4_nat (process_labels ep) = Some [] ∧
        to_json (process_labels ep) !! "ipv4_nat" = None ∧
        to_json (process_labels ep) = to_json (MkKDEndpoint (kd_endpoint ep) None)).
Proof.
  intros Hempty Hbase. split.
  - unfold to_json. destruct (ipv4_nat ep) as [[|e l]|].
    + rewrite Hbase. split; [by intros [? ?] | by intros (? & ? & ?)].
    + rewrite lookup_insert_eq. split; [by eauto | by eauto].
    + rewrite Hbase. split; [by intros [? ?] | by intros (? & ? & ?)].
  - intros v Hv Hok Hnets.
    assert (Hnat : process_labels ep = MkKDEndpoint (kd_endpoint ep) (Some [])).
    { unfold process_labels. rewrite decide_False.
      - rewrite Hv, Hok. rewrite decide_False by congruence. by rewrite Hnets.
      - intros Hl. by rewrite Hl, lookup_empty in Hv. }
    rewrite Hnat. unfold to_json. by cbn.
Qed.

(** C3.  When the labels of the event differ from the cached ones and the
    endpoint cache has nothing under the workload id, [update_pod] runs
    [load_caches] once, which reads the endpoints of the tag ["k8s"] once
    and writes nothing; what follows the reload makes no further read.  The
    lookup is then made once more, in the endpoint cache as the reload left
    it.  When it still has nothing under the id, [update_pod] returns with
    the globals just as the reload left them, so without a write.  When it
    now holds an endpoint under the id, [update_pod] goes on with that
    endpoint: it sets the labels, recomputes the NAT mapping and writes the
    endpoint, so that its calls are the read followed by that one write.
    When the read raises, [update_pod] raises the same exception with the
    globals as the reload left them.  Whatever the event and the globals,
    one run of [update_pod] makes at most one read and at most one write. *)
Theorem update_pod_unknown_workload p p' wid ns nm lbls g :
  parse_pod p = (p', Return (wid, ns, nm, lbls)) →
  label_cache g !! wid ≠ Some lbls →
  endpoint_cache g !! wid = None →
  (∃ r g1, load_caches g = (r, g1) ∧
           calls g1 = calls g ++ [GetEndpoints "k8s"] ∧
           datastore g1 = datastore g ∧
           (∃ w, calls (update_pod p g).2.2 = calls g1 ++ w ∧
                 reads w = 0 ∧ (writes w ≤ 1)%nat) ∧
           (r = Return () → endpoint_cache g1 !! wid = None →
            update_pod p g = (p', (Return (), g1))) ∧
           (∀ ep, r = Return () → endpoint_cache g1 !! wid = Some ep →
                  update_pod p g = (p', write_back wid lbls ep g1) ∧
                  calls (update_pod p g).2.2 =
                    calls g ++
                    [GetEndpoints "k8s";
                     SetEndpoint
                       (process_labels
                          (MkKDEndpoint (set_labels lbls (kd_endpoint ep))
                                        (ipv4_nat ep)))]) ∧
           (∀ e, r = Raise e → update_pod p g = (p', (Raise e, g1)))) ∧
  (∀ q g0, ∃ w, calls (update_pod q g0).2.2 = calls g0 ++ w ∧
                (reads w ≤ 1)%nat ∧ (writes w ≤ 1)%nat).
Proof.
  intros Hp Hl He. split.
  - destruct (load_caches g) as [r g1] eqn:Hload. exists r, g1.
    pose proof (update_pod_reload _ _ _ _ _ _ _ Hp Hl He) as Hup.
    rewrite Hload in Hup.
    rewrite load_caches_eq in Hload. cbn in Hload.
    split; [done|].
    destruct (get_endpoints "k8s" (datastore g)) as [eps|e];
      injection Hload as <- <-; cbn [calls datastore].
    + split; [done|]. split; [done|]. split; [|split; [|split]].
      * rewrite Hup. cbn [fst snd endpoint_cache].
        destruct (stored_endpoints _ _ !! wid) as [ep|].
        -- rewrite write_back_calls. cbn [calls].
           eexists. split; [done|]. count_calls.
        -- exists []. cbn [snd calls]. rewrite (right_id_L [] (++)).
           split; [done|]. count_calls.
      * intros _ Hnone. rewrite Hup. by rewrite Hnone.
      * intros ep _ Hsome. rewrite Hup, Hsome. split; [done|].
        cbn [fst snd]. rewrite write_back_calls. cbn [calls].
        by rewrite <-(assoc_L (++)).
      * intros e [=].
    + split; [done|]. split; [done|]. split; [|split; [|split]].
      * rewrite Hup. exists []. cbn [snd calls]. rewrite (right_id_L [] (++)).
        split; [done|]. count_calls.
      * intros [=].
      * intros ep [=].
      * intros e' [= <-]. exact Hup.
  - intros q g0. destruct (update_pod_shape q g0) as (w & Hw & Hcase).
    exists w. split; [done|].
    destruct Hcase as [->|[[e ->]|[->|[e ->]]]]; count_calls.
Qed.

(** C4, amended.  When the read succeeds, [load_caches] reads the endpoints
    of the tag ["k8s"] once, leaves the store alone, and stores every
    endpoint returned in both caches under its workload id: the
    [KDEndpoint] made of it in the endpoint cache, its labels in the label
    cache.  An entry whose key is the workload id of no endpoint returned
    is kept as it was: nothing is discarded. *)
Theorem load_caches_merges g (eps : list Endpoint) :
  get_endpoints "k8s" (datastore g) = Return eps →
  ∃ g1, load_caches g = (Return (), g1) ∧
        datastore g1 = datastore g ∧
        calls g1 = calls g ++ [GetEndpoints "k8s"] ∧
        ∀ k,
          (k ∈ workload_id <$> eps →
           ∃ e, e ∈ eps ∧ workload_id e = k ∧
                endpoint_cache g1 !! k = Some (from_endpoint e) ∧
                label_cache g1 !! k = Some (labels e)) ∧
          (k ∉ workload_id <$> eps →
           endpoint_cache g1 !! k = endpoint_cache g !! k ∧
           label_cache g1 !! k = label_cache g !! k).
Proof.
  intros Hget. rewrite load_caches_eq, Hget. cbn.
  eexists. split; [done|]. cbn. split; [done|]. split; [done|].
  intros k.
  assert (Hstep : stored_labels (from_endpoint <$> eps) ∅ !! k =
            (labels ∘ kd_endpoint) <$>
              stored_endpoints (from_endpoint <$> eps) ∅ !! k)
    by (by apply stored_in_step).
  assert (Hmap : (workload_id ∘ kd_endpoint) <$> (from_endpoint <$> eps) =
                 workload_id <$> eps).
  { rewrite <-list_fmap_compose. apply list_fmap_ext. intros i e _. cbn.
    by rewrite from_endpoint_endpoint. }
  rewrite stored_endpoints_lookup, stored_labels_lookup, Hstep.
  destruct (stored_endpoints (from_endpoint <$> eps) ∅ !! k) as [ep|] eqn:Hk.
  - apply stored_endpoints_Some in Hk as Hin. destruct Hin as [Hin Hw].
    apply list_elem_of_fmap in Hin as (e & -> & Hin).
    rewrite from_endpoint_endpoint in Hw. cbn. split.
    + intros _. exists e. by rewrite from_endpoint_endpoint.
    + intros Hn. destruct Hn. apply list_elem_of_fmap. by exists e.
  - apply stored_endpoints_None in Hk. rewrite Hmap in Hk. by split.
Qed.

(** C8.  When a handler returns normally from an event that parses to the
    workload id [wid] and the label set [lbls], and its run has written an
    endpoint [ep] to the store, the handler is [update_pod], [ep] carries
    [lbls], the label cache holds [lbls] under [wid] and the endpoint cache
    holds [ep] under [wid].  If every cached endpoint sat under its own
    workload id before, [ep] is the endpoint of the workload [wid] and
    every cached endpoint still sits under its own id. *)
Theorem write_updates_both_caches (h : handler) p p' wid ns nm lbls g g' ep w :
  parse_pod p = (p', Return (wid, ns, nm, lbls)) →
  run_handler h p g = (p', (Return (), g')) →
  calls g' = calls g ++ w →
  SetEndpoint ep ∈ w →
  h = UpdatePod ∧
  labels (kd_endpoint ep) = lbls ∧
  label_cache g' !! wid = Some lbls ∧
  endpoint_cache g' !! wid = Some ep ∧
  (keys_agree g → workload_id (kd_endpoint ep) = wid ∧ keys_agree g').
Proof.
  intros Hp Hrun Hcalls Hin.
  assert (Hwb : ∀ g0 ep0,
    endpoint_cache g0 !! wid = Some ep0 →
    (∃ w0, calls g0 = calls g ++ w0 ∧ writes w0 = 0) →
    write_back wid lbls ep0 g0 = (Return (), g') →
    labels (kd_endpoint ep) = lbls ∧
    label_cache g' !! wid = Some lbls ∧
    endpoint_cache g' !! wid = Some ep ∧
    (keys_agree g0 → workload_id (kd_endpoint ep) = wid ∧ keys_agree g')).
  { intros g0 ep0 He0 (w0 & Hw0 & Hnow) Hwb. unfold write_back in Hwb.
    destruct (set_endpoint _ (datastore g0)) as [ds|e]; [|done].
    injection Hwb as <-. cbn in Hcalls. rewrite Hw0, <-(assoc_L (++)) in Hcalls.
    apply app_inv_head in Hcalls. subst w.
    apply elem_of_app in Hin as [Hin|Hin].
    { exfalso. unfold writes in Hnow. apply length_zero_iff_nil in Hnow.
      assert (Hf : SetEndpoint ep ∈ filter is_write w0)
        by (by apply list_elem_of_filter).
      rewrite Hnow in Hf. by apply not_elem_of_nil in Hf. }
    apply list_elem_of_singleton in Hin. injection Hin as ->.
    cbn. rewrite !lookup_insert_eq, process_labels_endpoint. cbn.
    split; [done|]. split; [done|]. split; [done|].
    intros Hk. split; [by apply Hk|].
    intros k ep1. cbn. destruct (decide (wid = k)) as [<-|Hne].
    - rewrite lookup_insert_eq. intros [= <-].
      rewrite process_labels_endpoint. cbn. by apply Hk.
    - rewrite lookup_insert_ne by done. apply Hk. }
  destruct h; cbn in Hrun.
  - rewrite (add_pod_eq _ _ _ _ _ _ g Hp) in Hrun. injection Hrun as <-.
    cbn [calls] in Hcalls.
    rewrite <-(right_id_L [] (++) (calls g)) in Hcalls at 1.
    apply app_inv_head in Hcalls. subst w. by apply not_elem_of_nil in Hin.
  - destruct (decide (label_cache g !! wid = Some lbls)) as [Hl|Hl].
    { rewrite (update_pod_unchanged _ _ _ _ _ _ _ Hp Hl) in Hrun.
      injection Hrun as <-.
      rewrite <-(right_id_L [] (++) (calls g)) in Hcalls at 1.
      apply app_inv_head in Hcalls. subst w. by apply not_elem_of_nil in Hin. }
    split; [done|].
    destruct (endpoint_cache g !! wid) as [ep0|] eqn:He.
    { rewrite (update_pod_cached _ _ _ _ _ _ _ _ Hp Hl He) in Hrun.
      injection Hrun as Hrun. apply (Hwb g ep0); [done| |done].
      exists []. by rewrite (right_id_L [] (++)). }
    rewrite (update_pod_reload _ _ _ _ _ _ _ Hp Hl He), load_caches_eq in Hrun.
    cbn in Hrun. destruct (get_endpoints "k8s" (datastore g)) as [eps|e]; [|done].
    match type of Hrun with context [write_back _ _ _ ?g0] => set (g1 := g0) in * end.
    destruct (endpoint_cache g1 !! wid) as [ep0|] eqn:He1; fold g1 in Hrun; cbn in Hrun.
    + injection Hrun as Hrun.
      destruct (Hwb g1 ep0) as (? & ? & ? & Hk); [done| |done|].
      { by exists [GetEndpoints "k8s"]. }
      do 3 (split; [done|]). intros Hg. apply Hk.
      intros k ep1. apply keys_agree_stored, Hg.
    + injection Hrun as <-. cbn in Hcalls. apply app_inv_head in Hcalls.
      subst w. apply list_elem_of_singleton in Hin. done.
  - rewrite (delete_pod_eq _ _ _ _ _ _ g Hp) in Hrun. injection Hrun as <-.
    cbn [calls] in Hcalls.
    rewrite <-(right_id_L [] (++) (calls g)) in Hcalls at 1.
    apply app_inv_head in Hcalls. subst w. by apply not_elem_of_nil in Hin.
Qed.

(** C1.  When the parsed label set of the event equals the entry of the
    label cache for its workload, [update_pod] returns at once and the
    globals (caches, store, calls) are as before.  Hence, of two runs in a
    row on events with the same workload and the same labels, the first
    having returned: the first makes at most one write; the second makes
    none and leaves both caches and the store as the first left them; and
    when the first did write, the second makes no call at all. *)
Theorem update_pod_idempotent p p' wid ns nm lbls g :
  parse_pod p = (p', Return (wid, ns, nm, lbls)) →
  (label_cache g !! wid = Some lbls → update_pod p g = (p', (Return (), g))) ∧
  (∀ g1, update_pod p g = (p', (Return (), g1)) →
     (∃ w, calls g1 = calls g ++ w ∧ (writes w ≤ 1)%nat ∧
           (writes w = 1 → label_cache g1 !! wid = Some lbls)) ∧
     ∀ q q' ns' nm',
       parse_pod q = (q', Return (wid, ns', nm', lbls)) →
       ∃ g2, update_pod q g1 = (q', (Return (), g2)) ∧
             label_cache g2 = label_cache g1 ∧
             endpoint_cache g2 = endpoint_cache g1 ∧
             datastore g2 = datastore g1 ∧
             writes (calls g2) = writes (calls g1) ∧
             (label_cache g1 !! wid = Some lbls → g2 = g1)).
Proof.
  intros Hp. split; [by apply (update_pod_unchanged _ _ _ _ _ _ _ Hp)|].
  intros g1 Hrun.
  (* the second run, when the cache already holds the labels *)
  assert (Hsame : ∀ g0,
    label_cache g0 !! wid = Some lbls →
    ∀ q q' ns' nm',
      parse_pod q = (q', Return (wid, ns', nm', lbls)) →
      ∃ g2, update_pod q g0 = (q', (Return (), g2)) ∧
            label_cache g2 = label_cache g0 ∧
            endpoint_cache g2 = endpoint_cache g0 ∧
            datastore g2 = datastore g0 ∧
            writes (calls g2) = writes (calls g0) ∧
            (label_cache g0 !! wid = Some lbls → g2 = g0)).
  { intros g0 Hl0 q q' ns' nm' Hq. exists g0.
    by rewrite (update_pod_unchanged _ _ _ _ _ _ _ Hq Hl0). }
  (* the first run ended in [write_back] *)
  assert (Hwb : ∀ g0 ep0 w0,
    calls g0 = calls g ++ w0 → writes w0 = 0 →
    write_back wid lbls ep0 g0 = (Return (), g1) →
    (∃ w, calls g1 = calls g ++ w ∧ (writes w ≤ 1)%nat ∧
          (writes w = 1 → label_cache g1 !! wid = Some lbls)) ∧
    label_cache g1 !! wid = Some lbls).
  { intros g0 ep0 w0 Hw0 Hnow Hwb. unfold write_back in Hwb.
    destruct (set_endpoint _ (datastore g0)) as [ds|e]; [|done].
    injection Hwb as <-. cbn. rewrite lookup_insert_eq. split; [|done].
    eexists. rewrite Hw0, <-(assoc_L (++)). split; [done|].
    rewrite writes_app, Hnow. split; [count_calls | done]. }
  destruct (decide (label_cache g !! wid = Some lbls)) as [Hl|Hl].
  { rewrite (update_pod_unchanged _ _ _ _ _ _ _ Hp Hl) in Hrun.
    injection Hrun as <-. split; [|by apply Hsame].
    exists []. rewrite (right_id_L [] (++)). split; [done|]. count_calls. }
  destruct (endpoint_cache g !! wid) as [ep0|] eqn:He.
  { rewrite (update_pod_cached _ _ _ _ _ _ _ _ Hp Hl He) in Hrun.
    injection Hrun as Hrun.
    destruct (Hwb g ep0 []) as [Hw Hl1];
      [by rewrite (right_id_L [] (++)) | done | done |].
    split; [done | by apply Hsame]. }
  rewrite (update_pod_reload _ _ _ _ _ _ _ Hp Hl He), load_caches_eq in Hrun.
  cbn in Hrun.
  destruct (get_endpoints "k8s" (datastore g)) as [eps|e] eqn:Hget; [|done].
  match type of Hrun with context [write_back _ _ _ ?g0] => set (gl := g0) in * end.
  destruct (endpoint_cache gl !! wid) as [ep0|] eqn:He1; fold gl in Hrun;
    cbn in Hrun.
  { injection Hrun as Hrun.
    destruct (Hwb gl ep0 [GetEndpoints "k8s"]) as [Hw Hl1]; [done..|].
    split; [done | by apply Hsame]. }
  injection Hrun as <-. split.
  { exists [GetEndpoints "k8s"]. split; [done|]. count_calls. }
  intros q q' ns' nm' Hq.
  destruct (decide (label_cache gl !! wid = Some lbls)) as [Hl1|Hl1];
    [by eapply Hsame|].
  rewrite (update_pod_reload _ _ _ _ _ _ _ Hq Hl1 He1), load_caches_eq.
  subst gl. cbn [label_cache endpoint_cache datastore calls].
  rewrite Hget. cbn [label_cache endpoint_cache datastore calls].
  rewrite stored_endpoints_idemp, stored_labels_idemp.
  cbn [endpoint_cache] in He1. rewrite He1.
  eexists. split; [done|]. cbn [label_cache endpoint_cache datastore calls].
  do 3 (split; [done|]). split; [count_calls | done].
Qed.
End Claims.

(** * The properties on explicit inputs

    The sample environment: pod [default/web], one endpoint of it in the
    store, over the prefix [10.0.0.5/32]. *)

Section Runs.
#[local] Existing Instances Sample.constants Sample.netaddr Sample.client
  Sample.endpoint_json.

Lemma web_event_parsed :
  parse_pod Sample.web_event =
    (Sample.web_event',
     Return ("default.web", "default", "web", Sample.web_parsed)).
Proof. reflexivity. Qed.

Lemma old_event_parsed :
  parse_pod (Sample.event "default" "old" None) =
    (Sample.event "default" "old" None,
     Return ("default.old", "default", "old", {["calico/k8s_ns" := "default"]})).
Proof. reflexivity. Qed.

Lemma parse_pod_namespace_label_witness :
  ∃ p' lbls,
    parse_pod (Sample.event "default" "web" None) =
      (p', Return ("default.web", "default", "web", lbls)) ∧
    lbls !! "calico/k8s_ns" = Some "default" ∧
    (@None (gmap string string) = None → lbls = {["calico/k8s_ns" := "default"]}).
Proof.
  exact (parse_pod_namespace_label
           (Metadata (Some "default") (Some "web") None) "default" "web"
           eq_refl eq_refl).
Defined.

(** C5, as stated, fails: the event held an empty label mapping before the
    parse and holds the namespace label after it. *)
Lemma parse_pod_writes_into_event :
  (parse_pod (Sample.event "default" "web" (Some ∅))).1 =
    Sample.event "default" "web" (Some {["calico/k8s_ns" := "default"]}) ∧
  (parse_pod (Sample.event "default" "web" (Some ∅))).1 ≠
    Sample.event "default" "web" (Some ∅) ∧
  md_labels <$> pod_metadata (parse_pod (Sample.event "default" "web" (Some ∅))).1
    ≠ md_labels <$> pod_metadata (Sample.event "default" "web" (Some ∅)).
Proof.
  split; [reflexivity|]. split.
  - intros Heq. apply (f_equal (λ p, md_labels <$> pod_metadata p)) in Heq.
    vm_compute in Heq. discriminate.
  - intros Heq. vm_compute in Heq. discriminate.
Qed.

Lemma update_pod_idempotent_witness :
  ∃ g1,
    update_pod Sample.web_event Sample.started =
      (Sample.web_event', (Return (), g1)) ∧
    writes (calls g1) = 1 ∧
    label_cache g1 !! "default.web" = Some Sample.web_parsed ∧
    update_pod Sample.web_event' g1 = (Sample.web_event', (Return (), g1)) ∧
    update_pod Sample.web_event g1 = (Sample.web_event', (Return (), g1)).
Proof.
  set (g1 := (update_pod Sample.web_event Sample.started).2.2).
  pose proof web_event_parsed as Hp.
  assert (Hrun : update_pod Sample.web_event Sample.started =
                 (Sample.web_event', (Return (), g1)))
    by (vm_compute; reflexivity).
  destruct (update_pod_idempotent _ _ _ _ _ _ Sample.started Hp) as [_ Htwice].
  destruct (Htwice g1 Hrun) as [(w & Hw & _ & Hcache) Hnext].
  assert (Hone : writes w = 1).
  { assert (Hw' : w = calls g1) by exact (eq_sym Hw). rewrite Hw'.
    vm_compute. reflexivity. }
  exists g1. split; [exact Hrun|]. split; [by rewrite Hw|].
  split; [by apply Hcache|]. split.
  - destruct (Hnext Sample.web_event' Sample.web_event' "default" "web")
      as (g2 & Hrun2 & _ & _ & _ & _ & Hno); [reflexivity|].
    by rewrite Hrun2, (Hno (Hcache Hone)).
  - destruct (Hnext Sample.web_event Sample.web_event' "default" "web" Hp)
      as (g2 & Hrun2 & _ & _ & _ & _ & Hno).
    by rewrite Hrun2, (Hno (Hcache Hone)).
Defined.

Lemma process_labels_nat_witness :
  ipv4_nat (process_labels
              (MkKDEndpoint (Sample.endpoint "default.web" [Net "10.0.0.5" 32]
                                             Sample.web_parsed) None)) =
    Some [NatEntry "10.0.0.5" "1.2.3.4"] ∧
  ipv4_nat (process_labels
              (MkKDEndpoint (Sample.endpoint "default.web" [Net "10.0.0.5" 32]
                               {["kuberdock-public-ip" := "not-an-ip"]})
                            (Some [NatEntry "10.0.0.5" "1.2.3.4"]))) = None.
Proof.
  split.
  - refine (proj1 (proj2 (proj2 (proj2 (process_labels_nat _ eq_refl eq_refl eq_refl _)))) _ _);
      [|reflexivity..].
    cbn. apply insert_non_empty.
  - refine (proj2 (proj2 (proj2 (proj2 (process_labels_nat _ eq_refl eq_refl eq_refl _)))) _);
      [|reflexivity].
    cbn. apply insert_non_empty.
Defined.

Lemma to_json_ipv4_nat_witness :
  ipv4_nat (process_labels
              (MkKDEndpoint (Sample.endpoint "default.web" [] Sample.web_parsed)
                            None)) = Some [] ∧
  to_json (process_labels
             (MkKDEndpoint (Sample.endpoint "default.web" [] Sample.web_parsed)
                           None)) !! "ipv4_nat" = None ∧
  to_json (process_labels
             (MkKDEndpoint (Sample.endpoint "default.web" [] Sample.web_parsed)
                           None)) =
    to_json (MkKDEndpoint (Sample.endpoint "default.web" [] Sample.web_parsed)
                          None).
Proof.
  refine (proj2 (to_json_ipv4_nat
                   (MkKDEndpoint (Sample.endpoint "default.web" [] Sample.web_parsed)
                                 None) eq_refl _) "1.2.3.4" _ eq_refl eq_refl);
    reflexivity.
Defined.

Lemma update_pod_unknown_workload_witness :
  update_pod Sample.web_event Sample.nothing_stored =
    (Sample.web_event',
     (Return (), Globals ∅ ∅ [] [GetEndpoints "k8s"])) ∧
  (∀ q g0, ∃ w, calls (update_pod q g0).2.2 = calls g0 ++ w ∧
                (reads w ≤ 1)%nat ∧ (writes w ≤ 1)%nat) ∧
  endpoint_cache (load_caches Sample.started).2 !! "default.web" =
    Some (from_endpoint Sample.web_endpoint) ∧
  calls (update_pod Sample.web_event Sample.started).2.2 =
    [GetEndpoints "k8s"; SetEndpoint Sample.web_written] ∧
  endpoint_cache (update_pod Sample.web_event Sample.started).2.2
    !! "default.web" = Some Sample.web_written.
Proof.
  pose proof web_event_parsed as Hp.
  assert (Hl : label_cache Sample.nothing_stored !! "default.web" ≠
               Some Sample.web_parsed) by (cbn; by rewrite lookup_empty).
  destruct (update_pod_unknown_workload _ _ _ _ _ _ Sample.nothing_stored
              Hp Hl eq_refl) as [(r & g1 & Hload & _ & _ & _ & Hgive & _) Hbound].
  split.
  { assert (Hload' : load_caches Sample.nothing_stored =
                     (Return (), Globals ∅ ∅ [] [GetEndpoints "k8s"]))
      by reflexivity.
    rewrite Hload' in Hload. injection Hload as <- <-.
    apply Hgive; reflexivity. }
  split; [exact Hbound|].
  assert (Hl' : label_cache Sample.started !! "default.web" ≠
                Some Sample.web_parsed) by (cbn; by rewrite lookup_empty).
  destruct (update_pod_unknown_workload _ _ _ _ _ _ Sample.started
              Hp Hl' eq_refl)
    as [(r' & g2 & Hload2 & _ & _ & _ & _ & Hfound & _) _].
  assert (Hload2' : load_caches Sample.started =
                    (Return (), (load_caches Sample.started).2))
    by (vm_compute; reflexivity).
  rewrite Hload2' in Hload2. injection Hload2 as <- <-.
  assert (Hec : endpoint_cache (load_caches Sample.started).2 !! "default.web" =
                Some (from_endpoint Sample.web_endpoint))
    by (vm_compute; reflexivity).
  destruct (Hfound _ eq_refl Hec) as [Hrun Hcalls].
  split; [exact Hec|]. split.
  - rewrite Hcalls. vm_compute. reflexivity.
  - rewrite Hrun. vm_compute. reflexivity.
Defined.

(** C4, as stated, fails: the store returns the one endpoint of
    [default.web], and after the reload both caches still hold the entry of
    [default.old], which is no endpoint of the result set. *)
Lemma load_caches_keeps_prior_entries :
  get_endpoints "k8s" (datastore Sample.stale) = Return [Sample.web_endpoint] ∧
  (load_caches Sample.stale).1 = Return () ∧
  label_cache (load_caches Sample.stale).2 !! "default.old" = Some ∅ ∧
  endpoint_cache (load_caches Sample.stale).2 !! "default.old" =
    Some Sample.old_endpoint ∧
  "default.old" ∉ workload_id <$> [Sample.web_endpoint].
Proof.
  do 4 (split; [vm_compute; reflexivity|]).
  cbn. intros Hin. apply list_elem_of_singleton in Hin. discriminate.
Qed.

Lemma load_caches_merges_witness :
  ∃ g1, load_caches Sample.stale = (Return (), g1) ∧
        calls g1 = [GetEndpoints "k8s"] ∧
        endpoint_cache g1 !! "default.web" =
          Some (from_endpoint Sample.web_endpoint) ∧
        label_cache g1 !! "default.web" = Some ∅ ∧
        endpoint_cache g1 !! "default.old" = Some Sample.old_endpoint ∧
        label_cache g1 !! "default.old" = Some ∅.
Proof.
  assert (Hget : get_endpoints "k8s" (datastore Sample.stale) =
                 Return [Sample.web_endpoint]) by (vm_compute; reflexivity).
  destruct (load_caches_merges Sample.stale [Sample.web_endpoint] Hget)
    as (g1 & Hload & _ & Hcalls & Hkeys).
  exists g1. split; [exact Hload|]. split; [exact Hcalls|].
  destruct (Hkeys "default.web") as [Hin _].
  destruct (Hkeys "default.old") as [_ Hout].
  destruct Hin as (e & He & _ & Hec & Hlc).
  { cbn. by apply list_elem_of_singleton. }
  apply list_elem_of_singleton in He. subst e.
  destruct Hout as [Hec' Hlc'].
  { cbn. intros Hin. apply list_elem_of_singleton in Hin. discriminate. }
  rewrite Hec, Hlc, Hec', Hlc'. by repeat split.
Defined.

Lemma add_pod_label_cache_witness :
  ∃ g', add_pod Sample.web_event Sample.stale = (Sample.web_event', (Return (), g')) ∧
        label_cache g' =
          <["default.web" := Sample.web_parsed]> (label_cache Sample.stale) ∧
        label_cache g' !! "default.web" = Some Sample.web_parsed ∧
        endpoint_cache g' = endpoint_cache Sample.stale ∧
        datastore g' = datastore Sample.stale ∧
        calls g' = [].
Proof.
  destruct (add_pod_label_cache Sample.web_event Sample.web_event'
              "default.web" "default" "web" Sample.web_parsed Sample.stale
              web_event_parsed)
    as (g' & Hadd & _ & _ & Hlc & Hl & Hec & Hds & Hc).
  exists g'. by repeat split.
Defined.

(** The workload [default.web] is in neither cache of [Sample.stale]. *)
Lemma delete_pod_swallows_missing_witness :
  label_cache Sample.stale !! "default.web" = None ∧
  endpoint_cache Sample.stale !! "default.web" = None ∧
  delete_pod Sample.web_event Sample.stale =
    (Sample.web_event', (Return (), Sample.stale)) ∧
  ∃ g', delete_pod (Sample.event "default" "old" None) Sample.stale =
          (Sample.event "default" "old" None, (Return (), g')) ∧
        label_cache g' = ∅ ∧ endpoint_cache g' = ∅ ∧
        datastore g' = [Sample.web_endpoint] ∧ calls g' = [].
Proof.
  split; [reflexivity|]. split; [reflexivity|]. split.
  - destruct (delete_pod_swallows_missing Sample.web_event Sample.web_event'
                "default.web" "default" "web" Sample.web_parsed Sample.stale
                web_event_parsed)
      as (g' & Hdel & _ & _ & _ & _ & Hlc & Hec & Hds & Hc).
    rewrite Hdel. destruct g' as [lc ec ds c]. cbn in *.
    by rewrite (Hlc eq_refl), (Hec eq_refl), Hds, Hc.
  - destruct (delete_pod_swallows_missing (Sample.event "default" "old" None)
                (Sample.event "default" "old" None)
                "default.old" "default" "old"
                {["calico/k8s_ns" := "default"]} Sample.stale old_event_parsed)
      as (g' & Hdel & Hlc & Hec & _ & _ & _ & _ & Hds & Hc).
    exists g'. split; [exact Hdel|].
    rewrite Hlc, Hec, Hds, Hc. cbn. by rewrite !delete_singleton_eq.
Defined.

Lemma write_updates_both_caches_witness :
  ∃ g', update_pod Sample.web_event Sample.started =
          (Sample.web_event', (Return (), g')) ∧
        calls g' = [GetEndpoints "k8s"; SetEndpoint Sample.web_written] ∧
        label_cache g' !! "default.web" = Some Sample.web_parsed ∧
        endpoint_cache g' !! "default.web" = Some Sample.web_written ∧
        keys_agree g'.
Proof.
  set (g' := (update_pod Sample.web_event Sample.started).2.2).
  assert (Hrun : update_pod Sample.web_event Sample.started =
                 (Sample.web_event', (Return (), g')))
    by (vm_compute; reflexivity).
  assert (Hcalls : calls g' =
                   calls Sample.started ++
                   [GetEndpoints "k8s"; SetEndpoint Sample.web_written])
    by (vm_compute; reflexivity).
  destruct (write_updates_both_caches UpdatePod Sample.web_event
              Sample.web_event' "default.web" "default" "web"
              Sample.web_parsed Sample.started g' Sample.web_written _
              web_event_parsed Hrun Hcalls)
    as (_ & _ & Hlc & Hec & Hkeys).
  { apply list_elem_of_further, list_elem_of_here. }
  exists g'. split; [exact Hrun|]. split; [exact Hcalls|].
  split; [exact Hlc|]. split; [exact Hec|].
  apply Hkeys. intros k ep Hk. cbn in Hk. by rewrite lookup_empty in Hk.
Defined.

(** A write that raises: the exception reaches the caller, the cached
    endpoint already carries the new labels and the new [ipv4_nat], the label
    cache has not been updated. *)
Lemma update_pod_failed_write :
  (@update_pod _ _ _ Sample.readonly_client Sample.web_event Sample.cached).2.1 =
    Raise (ClientError "write refused") ∧
  label_cache
    (@update_pod _ _ _ Sample.readonly_client Sample.web_event Sample.cached).2.2
    !! "default.web" = None ∧
  endpoint_cache
    (@update_pod _ _ _ Sample.readonly_client Sample.web_event Sample.cached).2.2
    !! "default.web" = Some Sample.web_written ∧
  calls
    (@update_pod _ _ _ Sample.readonly_client Sample.web_event Sample.cached).2.2 =
    [SetEndpoint Sample.web_written].
Proof. repeat split; vm_compute; reflexivity. Qed.
End Runs.

(** * Further properties of the handlers *)

Section Coverage.
Context `{Constants, NetAddr, EndpointJson} {DS : Type} `{!DatastoreClient DS}.
Implicit Types (p : pod) (g : globals DS) (wid ns nm : string).
Implicit Types (lbls : gmap string string) (ep : KDEndpoint).

(** X1.  An event that lacks a required field makes every handler raise
    [KeyError] on the first field missing, in the order ["metadata"],
    ["namespace"], ["name"]; the caches, the store and the calls are as
    before, and the event is as before too: its labels are written only once
    both fields have been read. *)
Theorem handler_missing_field (h : handler) p g :
  (pod_metadata p = None →
   run_handler h p g = (p, (Raise (KeyError "metadata"), g))) ∧
  (∀ md, pod_metadata p = Some md → md_namespace md = None →
         run_handler h p g = (p, (Raise (KeyError "namespace"), g))) ∧
  (∀ md ns, pod_metadata p = Some md → md_namespace md = Some ns →
            md_name md = None →
            run_handler h p g = (p, (Raise (KeyError "name"), g))).
Proof.
  assert (Hraise : ∀ e, parse_pod p = (p, Raise e) →
                        run_handler h p g = (p, (Raise e, g))).
  { intros e Hp. destruct h; cbn;
      unfold add_pod, update_pod, delete_pod;
      by rewrite (with_parsed_pod_Raise _ _ _ _ _ Hp). }
  split; [|split].
  - intros Hmd. apply Hraise. unfold parse_pod. by rewrite Hmd.
  - intros md Hmd Hns. apply Hraise. unfold parse_pod. by rewrite Hmd, Hns.
  - intros md ns Hmd Hns Hnm. apply Hraise. unfold parse_pod.
    by rewrite Hmd, Hns, Hnm.
Qed.

(** X2.  The label set that [parse_pod] returns keeps every label that the
    pod declared under another key than the reserved one, and holds the
    namespace under the reserved key even when the pod declared a value of
    its own there; it has no other key. *)
Theorem parse_pod_keeps_declared_labels p p' wid ns nm lbls md :
  parse_pod p = (p', Return (wid, ns, nm, lbls)) →
  pod_metadata p = Some md →
  lbls !! K8S_NAMESPACE_LABEL = Some ns ∧
  (∀ k, k ≠ K8S_NAMESPACE_LABEL → lbls !! k = default ∅ (md_labels md) !! k) ∧
  dom lbls = {[K8S_NAMESPACE_LABEL]} ∪ dom (default ∅ (md_labels md)).
Proof.
  intros Hp Hmd.
  apply parse_pod_Return in Hp as (md' & Hmd' & _ & _ & _ & -> & _).
  simplify_eq. split; [by rewrite lookup_insert_eq|]. split.
  - intros k Hk. by rewrite lookup_insert_ne.
  - by rewrite dom_insert_L.
Qed.

(** *** Workload ids *)

Lemma append_empty (t : string) : "" +:+ t = t.
Proof. reflexivity. Qed.

Lemma append_String (c : ascii) (s t : string) :
  String c s +:+ t = String c (s +:+ t).
Proof. reflexivity. Qed.

Lemma workload_id_inj ns1 nm1 ns2 nm2 :
  has_dot ns1 = false → has_dot ns2 = false →
  ns1 +:+ "." +:+ nm1 = ns2 +:+ "." +:+ nm2 →
  ns1 = ns2 ∧ nm1 = nm2.
Proof.
  revert ns2. induction ns1 as [|c ns1 IH]; intros [|d ns2] Hd1 Hd2 Heq;
    rewrite ?append_String, ?append_empty in Heq; cbn in Hd1, Hd2.
  - by injection Heq as ->.
  - injection Heq as <- _. by rewrite Ascii.eqb_refl in Hd2.
  - injection Heq as -> _. by rewrite Ascii.eqb_refl in Hd1.
  - injection Heq as -> Heq.
    apply orb_false_iff in Hd1 as [_ Hd1]. apply orb_false_iff in Hd2 as [_ Hd2].
    destruct (IH ns2 Hd1 Hd2 Heq) as [-> ->]. done.
Qed.

(** X3.  The workload id tells pods apart as long as namespaces have no dot
    (a Kubernetes namespace has none): two events that parse to the same
    workload id then have the same namespace and the same name. *)
Theorem parse_pod_workload_id_unique p1 p1' p2 p2' wid ns1 nm1 l1 ns2 nm2 l2 :
  parse_pod p1 = (p1', Return (wid, ns1, nm1, l1)) →
  parse_pod p2 = (p2', Return (wid, ns2, nm2, l2)) →
  has_dot ns1 = false → has_dot ns2 = false →
  ns1 = ns2 ∧ nm1 = nm2.
Proof.
  intros Hp1 Hp2 Hd1 Hd2.
  apply parse_pod_Return in Hp1 as (_ & _ & _ & _ & Hw1 & _).
  apply parse_pod_Return in Hp2 as (_ & _ & _ & _ & Hw2 & _).
  apply workload_id_inj; congruence.
Qed.

(** *** The adapter *)

Lemma process_labels_fresh ep (n : option (list nat_entry)) :
  process_labels (MkKDEndpoint (kd_endpoint ep) n) = process_labels ep.
Proof. done. Qed.

Lemma process_labels_idemp ep :
  process_labels (process_labels ep) = process_labels ep.
Proof.
  transitivity (process_labels (MkKDEndpoint (kd_endpoint (process_labels ep)) None));
    [done|].
  by rewrite process_labels_endpoint.
Qed.

(** X4.  [process_labels] does not look at the NAT mapping that the endpoint
    had: the result depends on the labels and the prefixes alone, so a
    mapping left from earlier labels never survives, and running it again
    changes nothing.  The result has a mapping exactly when the labels hold,
    under ["kuberdock-public-ip"], a text that is not empty and that
    [IPAddress] accepts; with no labels at all it has none. *)
Theorem process_labels_recomputes ep :
  (∀ n, process_labels (MkKDEndpoint (kd_endpoint ep) n) = process_labels ep) ∧
  process_labels (process_labels ep) = process_labels ep ∧
  (is_Some (ipv4_nat (process_labels ep)) ↔
   ∃ v, labels (kd_endpoint ep) !! "kuberdock-public-ip" = Some v ∧
        IPAddress v = true ∧ v ≠ "") ∧
  (labels (kd_endpoint ep) = ∅ → ipv4_nat (process_labels ep) = None).
Proof.
  split; [by intros n|]. split; [apply process_labels_idemp|]. split.
  - unfold process_labels. case_decide as Hl.
    + cbn. rewrite Hl, lookup_empty. split; [by intros [? ?]|].
      by intros (v & ? & _).
    + destruct (labels (kd_endpoint ep) !! _) as [v|]; cbn.
      * destruct (IPAddress v) eqn:Hv; cbn.
        -- case_decide as Hv'; cbn.
           ++ split; [by intros [? ?]|]. intros (v' & [= <-] & _ & ?). done.
           ++ split; [|by eauto]. intros _. by exists v.
        -- split; [by intros [? ?]|]. intros (v' & [= <-] & ? & _). congruence.
      * split; [by intros [? ?]|]. by intros (v & ? & _).
  - intros Hl. unfold process_labels. by rewrite decide_True.
Qed.

(** *** The serialiser *)



(** *** The reload *)

(** X6.  When the read of the store raises, [load_caches] raises the same
    exception and both caches are as before; [update_pod], when it has to
    reload, passes the exception on without writing and without touching
    the caches. *)
Theorem load_caches_raises g (e : exn) :
  get_endpoints "k8s" (datastore g) = Raise e →
  load_caches g =
    (Raise e, Globals (label_cache g) (endpoint_cache g) (datastore g)
                      (calls g ++ [GetEndpoints "k8s"])) ∧
  ∀ p p' wid ns nm lbls,
    parse_pod p = (p', Return (wid, ns, nm, lbls)) →
    label_cache g !! wid ≠ Some lbls →
    endpoint_cache g !! wid = None →
    update_pod p g =
      (p', (Raise e, Globals (label_cache g) (endpoint_cache g) (datastore g)
                             (calls g ++ [GetEndpoints "k8s"]))).
Proof.
  intros Hget.
  assert (Hload : load_caches g =
    (Raise e, Globals (label_cache g) (endpoint_cache g) (datastore g)
                      (calls g ++ [GetEndpoints "k8s"])))
    by (by rewrite load_caches_eq, Hget).
  split; [done|]. intros p p' wid ns nm lbls Hp Hl He.
  by rewrite (update_pod_reload _ _ _ _ _ _ _ Hp Hl He), Hload.
Qed.

(** X7.  Two reloads in a row, the store being the same, leave the caches as
    one reload leaves them. *)
Theorem load_caches_twice g g1 :
  load_caches g = (Return (), g1) →
  ∃ g2, load_caches g1 = (Return (), g2) ∧
        label_cache g2 = label_cache g1 ∧
        endpoint_cache g2 = endpoint_cache g1 ∧
        datastore g2 = datastore g1.
Proof.
  rewrite !load_caches_eq. cbn.
  destruct (get_endpoints "k8s" (datastore g)) as [eps|e] eqn:Hget; [|done].
  intros [= <-]. cbn [datastore label_cache endpoint_cache calls].
  rewrite Hget. eexists. split; [done|].
  cbn [datastore label_cache endpoint_cache calls].
  by rewrite stored_labels_idemp, stored_endpoints_idemp.
Qed.

Lemma stored_endpoints_last (l1 l2 : list KDEndpoint) (x : KDEndpoint)
    (m : gmap string KDEndpoint) :
  workload_id (kd_endpoint x) ∉ (workload_id ∘ kd_endpoint) <$> l2 →
  stored_endpoints (l1 ++ x :: l2) m !! workload_id (kd_endpoint x) = Some x.
Proof.
  intros Hlast. unfold stored_endpoints. rewrite foldl_app. cbn.
  fold (stored_endpoints l2
          (<[workload_id (kd_endpoint x) := x]> (foldl
             (λ m ep, <[workload_id (kd_endpoint ep) := ep]> m) m l1))).
  rewrite stored_endpoints_lookup.
  apply stored_endpoints_None in Hlast. by rewrite Hlast, lookup_insert_eq.
Qed.

(** X8.  When the store returns several endpoints of one workload, the last
    one returned is the one that both caches hold after the reload: the
    [KDEndpoint] made of it in the endpoint cache, its labels in the label
    cache. *)
Theorem load_caches_last_wins g (l1 l2 : list Endpoint) (e : Endpoint) :
  get_endpoints "k8s" (datastore g) = Return (l1 ++ e :: l2) →
  workload_id e ∉ workload_id <$> l2 →
  ∃ g1, load_caches g = (Return (), g1) ∧
        endpoint_cache g1 !! workload_id e = Some (from_endpoint e) ∧
        label_cache g1 !! workload_id e = Some (labels e).
Proof.
  intros Hget Hlast. rewrite load_caches_eq, Hget. cbn.
  eexists. split; [done|]. cbn [label_cache endpoint_cache].
  assert (Hec : ∀ m, stored_endpoints (from_endpoint <$> l1 ++ e :: l2) m
                       !! workload_id e = Some (from_endpoint e)).
  { intros m. rewrite fmap_app, fmap_cons.
    pose proof (stored_endpoints_last (from_endpoint <$> l1)
                  (from_endpoint <$> l2) (from_endpoint e) m) as Hx.
    rewrite from_endpoint_endpoint in Hx. apply Hx.
    rewrite <-list_fmap_compose.
    intros Hin. apply Hlast.
    apply list_elem_of_fmap in Hin as (x & Hwx & Hin). cbn in Hwx.
    rewrite from_endpoint_endpoint in Hwx. rewrite Hwx.
    by apply list_elem_of_fmap_2. }
  split; [done|].
  rewrite stored_labels_lookup, (stored_in_step _ ∅ ∅); [|by rewrite !lookup_empty].
  rewrite Hec. cbn. by rewrite from_endpoint_endpoint.
Qed.

(** *** What [update_pod] writes *)

Lemma set_labels_set_labels (l l' : gmap string string) (e : Endpoint) :
  set_labels l (set_labels l' e) = set_labels l e.
Proof. done. Qed.

Lemma write_back_Raise wid lbls ep g (e : exn) :
  set_endpoint (process_labels
                  (MkKDEndpoint (set_labels lbls (kd_endpoint ep)) (ipv4_nat ep)))
               (datastore g) = Raise e →
  write_back wid lbls ep g =
    (Raise e,
     Globals (label_cache g)
             (<[wid := process_labels
                         (MkKDEndpoint (set_labels lbls (kd_endpoint ep))
                                       (ipv4_nat ep))]> (endpoint_cache g))
             (datastore g)
             (calls g ++ [SetEndpoint (process_labels
                (MkKDEndpoint (set_labels lbls (kd_endpoint ep)) (ipv4_nat ep)))])).
Proof. intros Hset. unfold write_back. by rewrite Hset. Qed.

Lemma write_back_endpoint_cache wid lbls ep g :
  endpoint_cache (write_back wid lbls ep g).2 =
    <[wid := process_labels
               (MkKDEndpoint (set_labels lbls (kd_endpoint ep)) (ipv4_nat ep))]>
      (endpoint_cache g).
Proof. unfold write_back. by destruct (set_endpoint _ _). Qed.

Lemma write_back_label_cache wid lbls ep g k :
  k ≠ wid →
  label_cache (write_back wid lbls ep g).2 !! k = label_cache g !! k.
Proof.
  intros Hk. unfold write_back. destruct (set_endpoint _ _); cbn; [|done].
  by rewrite lookup_insert_ne.
Qed.

Lemma relabel_again lbls ep (n : option (list nat_entry)) :
  process_labels
    (MkKDEndpoint
       (set_labels lbls
          (kd_endpoint (process_labels
             (MkKDEndpoint (set_labels lbls (kd_endpoint ep)) (ipv4_nat ep)))))
       n) =
  process_labels (MkKDEndpoint (set_labels lbls (kd_endpoint ep)) (ipv4_nat ep)).
Proof. by rewrite process_labels_endpoint. Qed.

(** The endpoint that [update_pod] writes for the labels [lbls], made of the
    endpoint [ep] that it found. *)
Lemma relabelled_nat lbls ep :
  lbls ≠ ∅ →
  ipv4_nat (process_labels
              (MkKDEndpoint (set_labels lbls (kd_endpoint ep)) (ipv4_nat ep))) =
    match lbls !! "kuberdock-public-ip" with
    | Some v =>
      if IPAddress v && bool_decide (v ≠ "")
      then Some ((λ n, NatEntry (ip n) v) <$> ipv4_nets (kd_endpoint ep))
      else None
    | None => None
    end.
Proof.
  intros Hne. unfold process_labels. cbn. rewrite decide_False by done.
  destruct (lbls !! "kuberdock-public-ip") as [v|]; [|done].
  destruct (IPAddress v); [|done]. cbn.
  case_decide as Hv; [by rewrite bool_decide_false by tauto|].
  by rewrite bool_decide_true.
Qed.

(** X9.  When the labels have changed and the endpoint is in the endpoint
    cache, [update_pod] makes one call, the write of that endpoint with two
    attributes changed: the labels, now those of the event, and the NAT
    mapping, now derived from those labels and from the prefixes of the
    endpoint (absent when the labels have no usable public address); host,
    ids, prefixes and the rest are as cached.  Whether the write returns or
    raises, the endpoint cache then holds that endpoint for the workload,
    and the entries of every other workload are as before in both caches. *)
Theorem update_pod_cached_write p p' wid ns nm lbls g ep0 :
  parse_pod p = (p', Return (wid, ns, nm, lbls)) →
  label_cache g !! wid ≠ Some lbls →
  endpoint_cache g !! wid = Some ep0 →
  ∃ r g1 endpoint,
    update_pod p g = (p', (r, g1)) ∧
    calls g1 = calls g ++ [SetEndpoint endpoint] ∧
    kd_endpoint endpoint = set_labels lbls (kd_endpoint ep0) ∧
    ipv4_nat endpoint =
      match lbls !! "kuberdock-public-ip" with
      | Some v =>
        if IPAddress v && bool_decide (v ≠ "")
        then Some ((λ n, NatEntry (ip n) v) <$> ipv4_nets (kd_endpoint ep0))
        else None
      | None => None
      end ∧
    endpoint_cache g1 !! wid = Some endpoint ∧
    (∀ k, k ≠ wid → label_cache g1 !! k = label_cache g !! k ∧
                    endpoint_cache g1 !! k = endpoint_cache g !! k).
Proof.
  intros Hp Hl He.
  rewrite (update_pod_cached _ _ _ _ _ _ _ _ Hp Hl He).
  destruct (write_back wid lbls ep0 g) as [r g1] eqn:Hwb.
  exists r, g1. eexists. split; [done|].
  pose proof (write_back_calls wid lbls ep0 g) as Hc.
  pose proof (write_back_endpoint_cache wid lbls ep0 g) as Hec.
  rewrite Hwb in Hc, Hec. cbn in Hc, Hec.
  split; [exact Hc|]. split; [by rewrite process_labels_endpoint|]. split.
  { apply relabelled_nat. intros Hempty.
    apply parse_pod_Return in Hp as (md & _ & _ & _ & _ & Hlb & _).
    rewrite Hlb in Hempty. by apply insert_non_empty in Hempty. }
  rewrite Hec. split; [by rewrite lookup_insert_eq|].
  intros k Hk. split; [|by rewrite lookup_insert_ne].
  pose proof (write_back_label_cache wid lbls ep0 g k Hk) as Hlc.
  by rewrite Hwb in Hlc.
Qed.

(** X10.  A write that raises is tried again: when the endpoint is cached
    and [set_endpoint] raises, [update_pod] raises the same exception, the
    label cache keeps the old labels, and the next [update_pod] for the same
    workload and labels makes one call, the write of the same endpoint. *)
Theorem update_pod_retries_failed_write
    p p' q q' wid ns nm ns' nm' lbls g ep0 endpoint (e : exn) :
  parse_pod p = (p', Return (wid, ns, nm, lbls)) →
  parse_pod q = (q', Return (wid, ns', nm', lbls)) →
  label_cache g !! wid ≠ Some lbls →
  endpoint_cache g !! wid = Some ep0 →
  endpoint = process_labels
               (MkKDEndpoint (set_labels lbls (kd_endpoint ep0)) (ipv4_nat ep0)) →
  set_endpoint endpoint (datastore g) = Raise e →
  ∃ g1, update_pod p g = (p', (Raise e, g1)) ∧
        label_cache g1 = label_cache g ∧
        datastore g1 = datastore g ∧
        calls g1 = calls g ++ [SetEndpoint endpoint] ∧
        calls (update_pod q g1).2.2 = calls g1 ++ [SetEndpoint endpoint].
Proof.
  intros Hp Hq Hl He -> Hset.
  rewrite (update_pod_cached _ _ _ _ _ _ _ _ Hp Hl He).
  rewrite (write_back_Raise _ _ _ _ _ Hset).
  eexists. split; [done|]. cbn [label_cache datastore calls].
  do 3 (split; [done|]).
  erewrite (update_pod_cached _ _ _ _ _ _ _ _ Hq);
    [|done|cbn [endpoint_cache]; by rewrite lookup_insert_eq].
  cbn [fst snd]. rewrite write_back_calls. cbn [calls].
  by rewrite relabel_again.
Qed.

(** X11.  After a reload the labels are not compared again: when the
    endpoint cache has nothing for the workload and the store returns an
    endpoint of it, [update_pod] makes two calls, the read and the write of
    the last such endpoint with the labels of the event, whether or not that
    endpoint carried these labels already. *)
Theorem update_pod_writes_after_reload
    p p' wid ns nm lbls g (l1 l2 : list Endpoint) (e : Endpoint) :
  parse_pod p = (p', Return (wid, ns, nm, lbls)) →
  label_cache g !! wid ≠ Some lbls →
  endpoint_cache g !! wid = None →
  get_endpoints "k8s" (datastore g) = Return (l1 ++ e :: l2) →
  workload_id e = wid →
  wid ∉ workload_id <$> l2 →
  calls (update_pod p g).2.2 =
    calls g ++ [GetEndpoints "k8s";
                SetEndpoint (process_labels
                               (MkKDEndpoint (set_labels lbls e) None))].
Proof.
  intros Hp Hl He Hget <- Hlast.
  rewrite (update_pod_reload _ _ _ _ _ _ _ Hp Hl He), load_caches_eq, Hget.
  cbn [label_cache endpoint_cache datastore calls].
  assert (Hec : stored_endpoints (from_endpoint <$> l1 ++ e :: l2)
                  (endpoint_cache g) !! workload_id e = Some (from_endpoint e)).
  { rewrite fmap_app, fmap_cons.
    pose proof (stored_endpoints_last (from_endpoint <$> l1)
                  (from_endpoint <$> l2) (from_endpoint e) (endpoint_cache g)) as Hx.
    rewrite from_endpoint_endpoint in Hx. apply Hx.
    rewrite <-list_fmap_compose.
    intros Hin. apply Hlast.
    apply list_elem_of_fmap in Hin as (x & Hwx & Hin). cbn in Hwx.
    rewrite from_endpoint_endpoint in Hwx. rewrite Hwx.
    by apply list_elem_of_fmap_2. }
  rewrite Hec. cbn. rewrite write_back_calls. cbn.
  rewrite from_endpoint_endpoint, <-(assoc_L (++)). done.
Qed.

(** *** Invariants of the endpoint cache *)

Lemma nat_derived_stored (eps : list Endpoint) (m : gmap string KDEndpoint) :
  (∀ k ep, m !! k = Some ep → process_labels ep = ep) →
  ∀ k ep, stored_endpoints (from_endpoint <$> eps) m !! k = Some ep →
          process_labels ep = ep.
Proof.
  intros Hm k ep. rewrite stored_endpoints_lookup.
  destruct (stored_endpoints (from_endpoint <$> eps) ∅ !! k) as [ep'|] eqn:Hk.
  - intros [= ->]. apply stored_endpoints_Some in Hk as [Hin _].
    apply list_elem_of_fmap in Hin as (e & -> & _).
    unfold from_endpoint. apply process_labels_idemp.
  - apply Hm.
Qed.

Lemma invariants_write_back wid lbls ep0 g :
  endpoint_cache g !! wid = Some ep0 →
  keys_agree g → nat_derived g →
  keys_agree (write_back wid lbls ep0 g).2 ∧
  nat_derived (write_back wid lbls ep0 g).2.
Proof.
  intros He Hk Hn. unfold keys_agree, nat_derived.
  rewrite write_back_endpoint_cache. split; intros k ep.
  - destruct (decide (wid = k)) as [<-|Hne].
    + rewrite lookup_insert_eq. intros [= <-].
      rewrite process_labels_endpoint. cbn. by apply Hk.
    + rewrite lookup_insert_ne by done. apply Hk.
  - destruct (decide (wid = k)) as [<-|Hne].
    + rewrite lookup_insert_eq. intros [= <-]. apply process_labels_idemp.
    + rewrite lookup_insert_ne by done. apply Hn.
Qed.

(** X12.  Two invariants of the endpoint cache hold after every handler,
    whatever the event and whether the handler returns or raises, when they
    held before: every cached endpoint sits under its own workload id, and
    the NAT mapping of every cached endpoint is the one that
    [process_labels] derives from its labels and prefixes.  (Both hold of
    the empty caches the module starts with.) *)
Theorem handlers_keep_cache_invariants (h : handler) p g :
  keys_agree g → nat_derived g →
  keys_agree (run_handler h p g).2.2 ∧ nat_derived (run_handler h p g).2.2.
Proof.
  intros Hk Hn.
  destruct (parse_pod p) as [p' [[[[wid ns] nm] lbls]|e]] eqn:Hp.
  2:{ assert (Hrun : run_handler h p g = (p, (Raise e, g))).
      { destruct h; cbn; unfold add_pod, update_pod, delete_pod;
          by rewrite (with_parsed_pod_Raise _ _ _ _ _ Hp). }
      by rewrite Hrun. }
  destruct h; cbn [run_handler].
  - by rewrite (add_pod_eq _ _ _ _ _ _ g Hp).
  - destruct (decide (label_cache g !! wid = Some lbls)) as [Hl|Hl].
    { by rewrite (update_pod_unchanged _ _ _ _ _ _ _ Hp Hl). }
    destruct (endpoint_cache g !! wid) as [ep0|] eqn:He.
    { rewrite (update_pod_cached _ _ _ _ _ _ _ _ Hp Hl He). cbn [fst snd].
      by apply invariants_write_back. }
    rewrite (update_pod_reload _ _ _ _ _ _ _ Hp Hl He), load_caches_eq.
    cbn [label_cache endpoint_cache datastore calls].
    destruct (get_endpoints "k8s" (datastore g)) as [eps|e]; [|done].
    match goal with |- context [write_back _ _ _ ?g0] => set (g1 := g0) end.
    assert (Hk1 : keys_agree g1)
      by (intros k ep; apply keys_agree_stored, Hk).
    assert (Hn1 : nat_derived g1)
      by (intros k ep; apply nat_derived_stored, Hn).
    destruct (endpoint_cache g1 !! wid) as [ep0|] eqn:He1; cbn [fst snd];
      [|done].
    by apply invariants_write_back.
  - rewrite (delete_pod_eq _ _ _ _ _ _ g Hp). cbn [fst snd].
    split; intros k ep; cbn [endpoint_cache]; intros Hd;
      apply lookup_delete_Some in Hd as [_ Hd]; [by apply Hk | by eapply Hn].
Qed.

(** *** How the handlers compose *)

(** X13.  [add_pod] records the labels so that an [update_pod] with the
    same labels has nothing to do: after [add_pod], [update_pod] on an event
    of the same workload with the same labels returns at once, with no call
    on the client and the globals as [add_pod] left them, whatever the
    endpoint cache and the store hold. *)
Theorem add_then_update_is_noop p p' q q' wid ns nm ns' nm' lbls g :
  parse_pod p = (p', Return (wid, ns, nm, lbls)) →
  parse_pod q = (q', Return (wid, ns', nm', lbls)) →
  ∃ g1, add_pod p g = (p', (Return (), g1)) ∧
        update_pod q g1 = (q', (Return (), g1)).
Proof.
  intros Hp Hq. rewrite (add_pod_eq _ _ _ _ _ _ g Hp).
  eexists. split; [done|].
  apply (update_pod_unchanged _ _ _ _ _ _ _ Hq). cbn.
  by rewrite lookup_insert_eq.
Qed.

(** X14.  [delete_pod] undoes [add_pod]: for a workload that was in neither
    cache, [add_pod] followed by [delete_pod] on an event of the same
    workload gives the globals back as they were. *)
Theorem delete_undoes_add p p' q q' wid ns nm ns' nm' lbls lbls' g :
  parse_pod p = (p', Return (wid, ns, nm, lbls)) →
  parse_pod q = (q', Return (wid, ns', nm', lbls')) →
  label_cache g !! wid = None →
  endpoint_cache g !! wid = None →
  ∃ g1, add_pod p g = (p', (Return (), g1)) ∧
        delete_pod q g1 = (q', (Return (), g)).
Proof.
  intros Hp Hq Hl He. rewrite (add_pod_eq _ _ _ _ _ _ g Hp).
  eexists. split; [done|].
  rewrite (delete_pod_eq _ _ _ _ _ _ _ Hq). cbn.
  rewrite delete_insert_eq, (delete_id _ _ Hl), (delete_id _ _ He).
  by destruct g.
Qed.

(** X15.  Deleting twice is deleting once: a second [delete_pod] for the
    same workload returns normally and changes nothing. *)
Theorem delete_pod_twice p p' q q' wid ns nm ns' nm' lbls lbls' g :
  parse_pod p = (p', Return (wid, ns, nm, lbls)) →
  parse_pod q = (q', Return (wid, ns', nm', lbls')) →
  ∃ g1, delete_pod p g = (p', (Return (), g1)) ∧
        delete_pod q g1 = (q', (Return (), g1)).
Proof.
  intros Hp Hq. rewrite (delete_pod_eq _ _ _ _ _ _ g Hp).
  eexists. split; [done|].
  rewrite (delete_pod_eq _ _ _ _ _ _ _ Hq). cbn.
  by rewrite !delete_delete_eq.
Qed.

(** X16.  After [delete_pod] the workload is unknown again: the next
    [update_pod] for it, whatever its labels, starts with a read of the
    store (a reload), since neither cache has an entry for it. *)
Theorem update_after_delete_reloads p p' q q' wid ns nm ns' nm' lbls lbls' g :
  parse_pod p = (p', Return (wid, ns, nm, lbls)) →
  parse_pod q = (q', Return (wid, ns', nm', lbls')) →
  ∃ g1 w, delete_pod p g = (p', (Return (), g1)) ∧
          calls (update_pod q g1).2.2 = calls g1 ++ GetEndpoints "k8s" :: w ∧
          reads w = 0.
Proof.
  intros Hp Hq. rewrite (delete_pod_eq _ _ _ _ _ _ g Hp).
  match goal with |- context [(p', (Return (), ?g0))] => set (g1 := g0) end.
  assert (Hl : label_cache g1 !! wid ≠ Some lbls')
    by (cbn; by rewrite lookup_delete_eq).
  assert (He : endpoint_cache g1 !! wid = None)
    by (cbn; by rewrite lookup_delete_eq).
  exists g1. rewrite (update_pod_reload _ _ _ _ _ _ _ Hq Hl He), load_caches_eq.
  cbn [fst snd].
  destruct (get_endpoints "k8s" (datastore g1)) as [eps|e].
  - cbn [label_cache endpoint_cache datastore calls].
    destruct (stored_endpoints _ _ !! wid) as [ep|].
    + rewrite write_back_calls. cbn [calls]. rewrite <-(assoc_L (++)).
      eexists. split; [done|]. split; [done|]. count_calls.
    + exists []. split; [done|]. split; [done|]. count_calls.
  - exists []. split; [done|]. split; [done|]. count_calls.
Qed.
End Coverage.

(** * The further properties on explicit inputs *)

Section CoverageRuns.
#[local] Existing Instances Sample.constants Sample.netaddr Sample.client
  Sample.endpoint_json.

Lemma spoofed_event_parsed :
  parse_pod Cases.spoofed_event =
    (Sample.event "default" "web"
       (Some (<["calico/k8s_ns" := "default"]> Cases.spoofed_labels)),
     Return ("default.web", "default", "web",
             <["calico/k8s_ns" := "default"]> Cases.spoofed_labels)).
Proof. reflexivity. Qed.

Lemma parse_pod_keeps_declared_labels_witness :
  (<["calico/k8s_ns" := "default"]> Cases.spoofed_labels) !! "calico/k8s_ns" =
    Some "default" ∧
  (<["calico/k8s_ns" := "default"]> Cases.spoofed_labels) !! "app" = Some "db".
Proof.
  destruct (parse_pod_keeps_declared_labels _ _ _ _ _ _
              (Metadata (Some "default") (Some "web") (Some Cases.spoofed_labels))
              spoofed_event_parsed eq_refl) as (Hns & Hkeep & _).
  split; [exact Hns|]. rewrite (Hkeep "app"); [reflexivity|discriminate].
Defined.

(** Without the condition on dots two pods can share a workload id. *)
Lemma workload_id_collision :
  (parse_pod (Sample.event "a.b" "c" None)).2 =
    Return ("a.b.c", "a.b", "c", {["calico/k8s_ns" := "a.b"]}) ∧
  (parse_pod (Sample.event "a" "b.c" None)).2 =
    Return ("a.b.c", "a", "b.c", {["calico/k8s_ns" := "a"]}).
Proof. split; reflexivity. Qed.

Lemma parse_pod_workload_id_unique_witness :
  "default" = "default" ∧ "web" = "web".
Proof.
  exact (parse_pod_workload_id_unique _ _ _ _ _ _ _ _ _ _ _
           web_event_parsed spoofed_event_parsed eq_refl eq_refl).
Defined.


Lemma load_caches_raises_witness :
  @load_caches _ _ Faulty.client Sample.nothing_stored =
    (Raise (ClientError "store unreachable"),
     Globals ∅ ∅ [] [GetEndpoints "k8s"]) ∧
  @update_pod _ _ _ Faulty.client Sample.web_event Sample.nothing_stored =
    (Sample.web_event',
     (Raise (ClientError "store unreachable"),
      Globals ∅ ∅ [] [GetEndpoints "k8s"])).
Proof.
  destruct (load_caches_raises (DatastoreClient0 := Faulty.client)
              Sample.nothing_stored (ClientError "store unreachable") eq_refl)
    as [Hload Hupdate].
  split; [exact Hload|].
  apply (Hupdate _ _ _ _ _ _ web_event_parsed); [|reflexivity].
  cbn. by rewrite lookup_empty.
Defined.

Lemma load_caches_twice_witness :
  ∃ g2, load_caches (load_caches Sample.stale).2 = (Return (), g2) ∧
        label_cache g2 = label_cache (load_caches Sample.stale).2 ∧
        endpoint_cache g2 = endpoint_cache (load_caches Sample.stale).2 ∧
        datastore g2 = datastore (load_caches Sample.stale).2.
Proof.
  apply (load_caches_twice Sample.stale). vm_compute. reflexivity.
Defined.

Lemma load_caches_last_wins_witness :
  ∃ g1, load_caches Cases.stored_twice = (Return (), g1) ∧
        endpoint_cache g1 !! "default.web" =
          Some (from_endpoint Sample.web_endpoint) ∧
        label_cache g1 !! "default.web" = Some ∅.
Proof.
  assert (Hget : get_endpoints "k8s" (datastore Cases.stored_twice) =
                 Return ([Cases.web_endpoint_before] ++ Sample.web_endpoint :: []))
    by (vm_compute; reflexivity).
  apply (load_caches_last_wins Cases.stored_twice _ _ _ Hget).
  cbn. apply not_elem_of_nil.
Defined.

Lemma update_pod_cached_write_witness :
  ∃ g1, update_pod Sample.web_event Sample.cached =
          (Sample.web_event', (Return (), g1)) ∧
        calls g1 = [SetEndpoint Sample.web_written] ∧
        endpoint_cache g1 !! "default.web" = Some Sample.web_written.
Proof.
  assert (Hl : label_cache Sample.cached !! "default.web" ≠
               Some Sample.web_parsed) by (cbn; by rewrite lookup_empty).
  destruct (update_pod_cached_write _ _ _ _ _ _ Sample.cached
              (MkKDEndpoint Sample.web_endpoint None) web_event_parsed Hl eq_refl)
    as (r & g1 & endpoint & Hrun & Hcalls & _ & _ & Hec & _).
  assert (Hrun' : update_pod Sample.web_event Sample.cached =
            (Sample.web_event',
             (Return (), (update_pod Sample.web_event Sample.cached).2.2)))
    by (vm_compute; reflexivity).
  assert (Hr : r = Return ()) by congruence.
  assert (Hep : endpoint = Sample.web_written).
  { assert (Hc : calls g1 = [SetEndpoint Sample.web_written]).
    { assert (Hg1 : g1 = (update_pod Sample.web_event Sample.cached).2.2)
        by (by rewrite Hrun).
      rewrite Hg1. vm_compute. reflexivity. }
    rewrite Hc in Hcalls. cbn in Hcalls. by injection Hcalls as <-. }
  subst endpoint r. exists g1. by rewrite Hrun, Hcalls, Hec.
Defined.

Lemma update_pod_retries_failed_write_witness :
  ∃ g1, @update_pod _ _ _ Sample.readonly_client Sample.web_event Sample.cached =
          (Sample.web_event', (Raise (ClientError "write refused"), g1)) ∧
        label_cache g1 = ∅ ∧
        calls g1 = [SetEndpoint Sample.web_written] ∧
        calls (@update_pod _ _ _ Sample.readonly_client Sample.web_event' g1).2.2 =
          [SetEndpoint Sample.web_written; SetEndpoint Sample.web_written].
Proof.
  assert (Hl : label_cache Sample.cached !! "default.web" ≠
               Some Sample.web_parsed) by (cbn; by rewrite lookup_empty).
  assert (Hep : Sample.web_written =
                process_labels
                  (MkKDEndpoint (set_labels Sample.web_parsed Sample.web_endpoint)
                                None)) by (vm_compute; reflexivity).
  destruct (update_pod_retries_failed_write (DatastoreClient0 := Sample.readonly_client)
              Sample.web_event Sample.web_event' Sample.web_event' Sample.web_event'
              "default.web" "default" "web" "default" "web" Sample.web_parsed
              Sample.cached (MkKDEndpoint Sample.web_endpoint None)
              Sample.web_written (ClientError "write refused")
              web_event_parsed eq_refl Hl eq_refl Hep eq_refl)
    as (g1 & Hrun & Hlc & _ & Hcalls & Hagain).
  exists g1. split; [exact Hrun|]. split; [exact Hlc|]. split; [exact Hcalls|].
  by rewrite Hagain, Hcalls.
Defined.

Lemma update_pod_writes_after_reload_witness :
  calls (update_pod Sample.web_event Cases.stored_labelled).2.2 =
    [GetEndpoints "k8s"; SetEndpoint Sample.web_written] ∧
  labels Cases.web_endpoint_labelled = Sample.web_parsed.
Proof.
  assert (Hl : label_cache Cases.stored_labelled !! "default.web" ≠
               Some Sample.web_parsed) by (cbn; by rewrite lookup_empty).
  assert (Hget : get_endpoints "k8s" (datastore Cases.stored_labelled) =
                 Return ([] ++ Cases.web_endpoint_labelled :: []))
    by (vm_compute; reflexivity).
  split; [|reflexivity].
  rewrite (update_pod_writes_after_reload _ _ _ _ _ _ Cases.stored_labelled
             [] [] Cases.web_endpoint_labelled web_event_parsed Hl eq_refl Hget
             eq_refl).
  - vm_compute. reflexivity.
  - cbn. apply not_elem_of_nil.
Defined.

Lemma handlers_keep_cache_invariants_witness :
  keys_agree (update_pod Sample.web_event Sample.cached).2.2 ∧
  nat_derived (update_pod Sample.web_event Sample.cached).2.2.
Proof.
  apply (handlers_keep_cache_invariants UpdatePod Sample.web_event Sample.cached).
  - intros k ep Hk. cbn in Hk.
    apply lookup_singleton_Some in Hk as [<- <-]. reflexivity.
  - intros k ep Hk. cbn in Hk.
    apply lookup_singleton_Some in Hk as [_ <-]. reflexivity.
Defined.

Lemma add_then_update_is_noop_witness :
  ∃ g1, add_pod Sample.web_event Sample.stale = (Sample.web_event', (Return (), g1)) ∧
        update_pod Sample.web_event' g1 = (Sample.web_event', (Return (), g1)).
Proof.
  exact (add_then_update_is_noop Sample.web_event Sample.web_event'
           Sample.web_event' Sample.web_event' "default.web" "default" "web"
           "default" "web" Sample.web_parsed Sample.stale
           web_event_parsed eq_refl).
Defined.

Lemma delete_undoes_add_witness :
  ∃ g1, add_pod Sample.web_event Sample.stale = (Sample.web_event', (Return (), g1)) ∧
        delete_pod Cases.spoofed_event g1 =
          (Sample.event "default" "web"
             (Some (<["calico/k8s_ns" := "default"]> Cases.spoofed_labels)),
           (Return (), Sample.stale)).
Proof.
  exact (delete_undoes_add _ _ _ _ _ _ _ _ _ _ _ Sample.stale
           web_event_parsed spoofed_event_parsed eq_refl eq_refl).
Defined.

Lemma delete_pod_twice_witness :
  ∃ g1, delete_pod (Sample.event "default" "old" None) Sample.stale =
          (Sample.event "default" "old" None, (Return (), g1)) ∧
        delete_pod (Sample.event "default" "old" None) g1 =
          (Sample.event "default" "old" None, (Return (), g1)).
Proof.
  exact (delete_pod_twice _ _ _ _ _ _ _ _ _ _ _ Sample.stale
           old_event_parsed old_event_parsed).
Defined.

Lemma update_after_delete_reloads_witness :
  ∃ g1 w, delete_pod (Sample.event "default" "old" None) Sample.stale =
            (Sample.event "default" "old" None, (Return (), g1)) ∧
          calls (update_pod (Sample.event "default" "old" None) g1).2.2 =
            calls g1 ++ GetEndpoints "k8s" :: w ∧
          reads w = 0.
Proof.
  exact (update_after_delete_reloads _ _ _ _ _ _ _ _ _ _ _ Sample.stale
           old_event_parsed old_event_parsed).
Defined.
End CoverageRuns.
